(** * Resilience and consistency toolkit of the micro-service

Shallow embedding of the four components of the financial-grade upgrade
([FINANCIAL_GRADE_UPGRADE.md]): the Saga coordinator
([internal/transaction/saga.go]), the idempotency middleware
([internal/middleware/idempotent.go]), the token-bucket limiter
([internal/ratelimit/token_bucket.go]) and the circuit breaker
([internal/circuitbreaker/breaker.go]), together with the Redis helpers
of [internal/cache] they call, the transfer service built on the Saga
([internal/service/transfer.go]) and the cache-aside reads and updates
([internal/consistency/cache.go]).

The first part holds the definitions, one module per Go package; the
second part holds the theorems. *)

From Stdlib Require Import ZArith Lia.
From stdpp Require Import gmap strings list.

(* ===================================================================== *)
(** * Part I: definitions                                                 *)
(* ===================================================================== *)

(** ** Go values shared by the packages *)

Module Go.

(** The [error] interface, as far as the packages build errors:
    [errors.New(msg)] and [fmt.Errorf("... %w", err)], which keeps the
    formatted message and the wrapped cause. A nil error is [None]. *)
Inductive error : Type :=
| errors_New (msg : string)
| fmt_Errorf (msg : string) (cause : error).

Definition Error (e : error) : string :=
  match e with
  | errors_New msg => msg
  | fmt_Errorf msg _ => msg
  end.

Definition Unwrap (e : error) : option error :=
  match e with
  | errors_New _ => None
  | fmt_Errorf _ cause => Some cause
  end.

(** The errors [errors.Is]/[errors.As] walk through: [e], what it wraps,
    and so on. *)
Fixpoint chain (e : error) : list error :=
  e :: match e with
       | errors_New _ => []
       | fmt_Errorf _ cause => chain cause
       end.

#[global] Instance error_eq_dec : EqDecision error.
Proof. solve_decision. Defined.

(** [int] is 64 bits wide on the platforms the service is built for;
    arithmetic wraps around in two's complement. *)
Definition MaxInt : Z := 2 ^ 63 - 1.
Definition MinInt : Z := - 2 ^ 63.
Definition wrap (z : Z) : Z := (z + 2 ^ 63) mod 2 ^ 64 - 2 ^ 63.
Definition incr (z : Z) : Z := wrap (z + 1).

(** [time.Duration] counts nanoseconds in an int64; [time.Time] is taken as
    nanoseconds on the process clock. [t.Sub(u)] saturates at the largest
    and smallest duration. *)
Definition Nanosecond : Z := 1.
Definition Millisecond : Z := 1000000 * Nanosecond.
Definition Second : Z := 1000000000 * Nanosecond.
Definition Hour : Z := 3600 * Second.
Definition time_Sub (t u : Z) : Z := Z.max MinInt (Z.min MaxInt (t - u)).

End Go.

Import Go.

(** ** [internal/transaction/saga.go] *)

Module Saga.

Section WithState.

(** [U] is the state the step closures read and write (accounts,
    ledgers, ...). The coordinator itself only adds lines to the
    standard output. *)
Context {U : Type}.

Record World : Type := mkWorld { user : U; stdout : list string }.

(** [func(ctx context.Context) error] *)
Definition action : Type := U -> U * option error.

Record Step : Type := mkStep {
  Name : string;
  Do : action;
  Compensate : action;
}.

Record Saga : Type := mkSaga {
  steps : list Step;
  executedSteps : list nat;
}.

Definition NewSaga : Saga := {| steps := []; executedSteps := [] |}.

Definition AddStep (s : Saga) (step : Step) : Saga :=
  {| steps := steps s ++ [step]; executedSteps := executedSteps s |}.

Definition newline : string := String (Ascii.ascii_of_nat 10) "".

(** [fmt.Printf("补偿步骤 %s 失败: %v\n", step.Name, err)] *)
Definition compensate_line (name : string) (err : error) : string :=
  "补偿步骤 " +:+ name +:+ " 失败: " +:+ Error err +:+ newline.

(** [fmt.Errorf("步骤 %s 执行失败: %w", step.Name, err)] *)
Definition step_failed (name : string) (err : error) : error :=
  fmt_Errorf ("步骤 " +:+ name +:+ " 执行失败: " +:+ Error err) err.

(** The loop of [compensate], entered with [n = i + 1]:
    [for i := len(s.executedSteps) - 1; i >= 0; i--]. Indexing a slice
    out of range panics: [None]. *)
Fixpoint compensate_loop (s : Saga) (n : nat) (w : World) : option World :=
  match n with
  | O => Some w
  | S i =>
      stepIndex ← executedSteps s !! i;
      step ← steps s !! stepIndex;
      let '(u, err) := Compensate step (user w) in
      let out :=
        match err with
        | Some e => stdout w ++ [compensate_line (Name step) e]
        | None => stdout w
        end in
      compensate_loop s i {| user := u; stdout := out |}
  end.

Definition compensate (s : Saga) (w : World) : option World :=
  compensate_loop s (length (executedSteps s)) w.

(** The loop of [Execute], [for i, step := range s.steps], with [rest]
    the steps from index [i] on. The result is the saga as the call
    leaves it, the world, and the returned error. *)
Fixpoint Execute_loop (s : Saga) (i : nat) (rest : list Step) (w : World)
  : option (Saga * World * option error) :=
  match rest with
  | [] => Some (s, w, None)
  | step :: rest' =>
      let '(u, err) := Do step (user w) in
      let w1 := {| user := u; stdout := stdout w |} in
      match err with
      | Some e =>
          w2 ← compensate s w1;
          Some (s, w2, Some (step_failed (Name step) e))
      | None =>
          Execute_loop
            {| steps := steps s; executedSteps := executedSteps s ++ [i] |}
            (S i) rest' w1
      end
  end.

Definition Execute (s : Saga) (w : World) : option (Saga * World * option error) :=
  Execute_loop s 0 (steps s) w.

End WithState.

Arguments World : clear implicits.
Arguments action : clear implicits.
Arguments Step : clear implicits.
Arguments Saga : clear implicits.

(** *** Observing the calls

To count invocations the closures of a saga are wrapped, the way a
test double would: the wrapper of step [i] runs the original closure
and appends the call and its result to a log kept next to the state. *)

Inductive call : Type :=
| CallDo (i : nat)
| CallCompensate (i : nat).

#[global] Instance call_eq_dec : EqDecision call.
Proof. solve_decision. Defined.

Definition event : Type := call * option error.

Definition logged {U} (c : call) (f : action U) : action (U * list event) :=
  fun '(u, log) => let '(u', r) := f u in ((u', log ++ [(c, r)]), r).

Definition spy {U} (i : nat) (st : Step U) : Step (U * list event) :=
  {| Name := Name st;
     Do := logged (CallDo i) (Do st);
     Compensate := logged (CallCompensate i) (Compensate st) |}.

(** The saga a caller builds from [sts]: [NewSaga()] followed by one
    [AddStep] per step. *)
Definition build {U} (sts : list (Step U)) : Saga U :=
  foldl AddStep NewSaga sts.

(** [Execute] on the saga built from the wrapped steps, from state [u],
    an empty log and an empty standard output. *)
Definition observe {U} (sts : list (Step U)) (u : U)
  : option (Saga (U * list event) * World (U * list event) * option error) :=
  Execute (build (imap spy sts)) {| user := (u, []); stdout := [] |}.

Definition calls (log : list event) : list call := fst <$> log.

(** The compensations that failed, in the order they were called. *)
Definition compensation_failures (log : list event) : list (nat * error) :=
  omap (fun ev : event =>
          match ev with
          | (CallCompensate i, Some e) => Some (i, e)
          | _ => None
          end) log.

Definition name_of {U} (sts : list (Step U)) (i : nat) : string :=
  default "" (Name <$> sts !! i).

(** The successful stretch of a log: the actions [i, ..., i+n-1], each
    returning nil. *)
Definition done_from (i n : nat) : list event :=
  (λ j, (CallDo j, None)) <$> seq i n.

(** The lines [compensate] prints for the failed compensations of a log,
    one [Printf] each. *)
Definition failure_lines {U} (sts : list (Step U)) (log : list event) : list string :=
  (λ '(i, e), compensate_line (name_of sts i) e) <$> compensation_failures log.

(** An error [target] is reported by [err] when a caller holding [err] can
    get at it: it is [err] or one of the errors [err] wraps, or its text
    is part of the text of [err]. *)
Definition reported (err target : error) : Prop :=
  target ∈ chain err ∨ is_Some (String.index 0 (Error target) (Error err)).

(** The log a run leaves (empty if the run panicked). *)
Definition log_of {U}
    (r : option (Saga (U * list event) * World (U * list event) * option error))
  : list event :=
  match r with
  | Some (_, w, _) => (user w).2
  | None => []
  end.

(** How many times a closure was called. *)
Definition times (c : call) (log : list event) : nat :=
  count_occ call_eq_dec (calls log) c.

(** *** A transfer in three steps, after [internal/service/transfer.go],
    with closures that count the units of work done and fail as told. *)
Definition succeed : action nat := fun n => (S n, None).
Definition fail_with (msg : string) : action nat :=
  fun n => (n, Some (errors_New msg)).

Definition transfer : list (Step nat) :=
  [ {| Name := "debit"; Do := succeed; Compensate := succeed |};
    {| Name := "credit"; Do := succeed; Compensate := fail_with "reversal failed" |};
    {| Name := "journal"; Do := fail_with "disk full"; Compensate := succeed |} ].

(** The same transfer with a journal that works until the disk holds four
    entries: the first run succeeds, a second run of the same saga fails at
    the journal. *)
Definition journal_until_full : action nat :=
  fun n => if 4 <=? n then (n, Some (errors_New "disk full")) else (S n, None).

Definition settled : list (Step nat) :=
  [ {| Name := "debit"; Do := succeed; Compensate := succeed |};
    {| Name := "credit"; Do := succeed; Compensate := succeed |};
    {| Name := "journal"; Do := journal_until_full; Compensate := succeed |} ].

End Saga.

(** ** [internal/circuitbreaker/breaker.go] *)

Module CircuitBreaker.

Local Open Scope Z_scope.

Inductive State : Type :=
| StateClosed
| StateOpen
| StateHalfOpen.

#[global] Instance State_eq_dec : EqDecision State.
Proof. solve_decision. Defined.

(** The struct without its mutex: calls on one breaker are taken one at a
    time, which is what the mutex is for. [timeout] is a [time.Duration],
    [openTime] a [time.Time]. *)
Record CircuitBreaker : Type := mkBreaker {
  state : State;
  failureCount : Z;
  successCount : Z;
  failureThreshold : Z;
  timeout : Z;
  openTime : Z;
}.

Definition ErrCircuitOpen : error := errors_New "熔断器已开启".

(** The zero [time.Time], January 1 of year 1, on the same clock. *)
Definition time_zero : Z := -62135596800 * Second.

Definition NewCircuitBreaker (failureThreshold timeout : Z) : CircuitBreaker :=
  {| state := StateClosed;
     failureCount := 0;
     successCount := 0;
     failureThreshold := failureThreshold;
     timeout := timeout;
     openTime := time_zero |}.

(** [allow], with [now] the reading of [time.Now()] inside
    [time.Since(cb.openTime)]. It returns the breaker as the call leaves
    it and the answer. *)
Definition allow (cb : CircuitBreaker) (now : Z) : CircuitBreaker * bool :=
  match state cb with
  | StateClosed => (cb, true)
  | StateOpen =>
      if timeout cb <? time_Sub now (openTime cb) then
        ({| state := StateHalfOpen;
            failureCount := failureCount cb;
            successCount := 0;
            failureThreshold := failureThreshold cb;
            timeout := timeout cb;
            openTime := openTime cb |}, true)
      else (cb, false)
  | StateHalfOpen => (cb, true)
  end.

(** [record], with [now] the reading of [time.Now()] taken when the
    breaker opens. *)
Definition record (cb : CircuitBreaker) (err : option error) (now : Z) : CircuitBreaker :=
  match err with
  | Some _ =>
      let failureCount' := incr (failureCount cb) in
      let successCount' := 0 in
      if bool_decide (state cb = StateClosed) && (failureThreshold cb <=? failureCount') then
        {| state := StateOpen;
           failureCount := failureCount';
           successCount := successCount';
           failureThreshold := failureThreshold cb;
           timeout := timeout cb;
           openTime := now |}
      else if bool_decide (state cb = StateHalfOpen) then
        {| state := StateOpen;
           failureCount := failureCount';
           successCount := successCount';
           failureThreshold := failureThreshold cb;
           timeout := timeout cb;
           openTime := now |}
      else
        {| state := state cb;
           failureCount := failureCount';
           successCount := successCount';
           failureThreshold := failureThreshold cb;
           timeout := timeout cb;
           openTime := openTime cb |}
  | None =>
      let successCount' := incr (successCount cb) in
      let failureCount' := 0 in
      if bool_decide (state cb = StateHalfOpen) && (2 <=? successCount') then
        {| state := StateClosed;
           failureCount := failureCount';
           successCount := successCount';
           failureThreshold := failureThreshold cb;
           timeout := timeout cb;
           openTime := openTime cb |}
      else
        {| state := state cb;
           failureCount := failureCount';
           successCount := successCount';
           failureThreshold := failureThreshold cb;
           timeout := timeout cb;
           openTime := openTime cb |}
  end.

Section WithWorld.

(** [W] is what the protected function reads and writes; [clock] is the
    reading [time.Now()] gives in a world. *)
Context {W : Type} (clock : W → Z).

(** [func() error] *)
Definition protected : Type := W → W * option error.

Definition Call (cb : CircuitBreaker) (fn : protected) (w : W)
  : CircuitBreaker * W * option error :=
  let '(cb1, ok) := allow cb (clock w) in
  if negb ok then (cb1, w, Some ErrCircuitOpen)
  else
    let '(w', err) := fn w in
    (record cb1 err (clock w'), w', err).

(** One [Call] after the other, each with its own function. *)
Fixpoint Calls (cb : CircuitBreaker) (fns : list protected) (w : W)
  : CircuitBreaker * W :=
  match fns with
  | [] => (cb, w)
  | fn :: fns' => let '(cb', w', _) := Call cb fn w in Calls cb' fns' w'
  end.

(** Every call of such a run fails: each function returns an error in the
    world it is called in. *)
Fixpoint all_fail (cb : CircuitBreaker) (fns : list protected) (w : W) : Prop :=
  match fns with
  | [] => True
  | fn :: fns' =>
      (fn w).2 ≠ None
      ∧ all_fail (Call cb fn w).1.1 fns' (Call cb fn w).1.2
  end.

End WithWorld.

(** *** A dependency observed by a test: the world is the clock and the
    number of times the dependency was called; each call takes a
    millisecond. *)
Definition probe : Type := Z * nat.
Definition probe_clock (w : probe) : Z := w.1.
Definition Millisecond : Z := 1000000 * Nanosecond.
Definition down : @protected probe :=
  fun w => ((w.1 + Millisecond, S w.2), Some (errors_New "connection refused")).
Definition up : @protected probe :=
  fun w => ((w.1 + Millisecond, S w.2), None).
(** Time passing between two calls. *)
Definition later (d : Z) (w : probe) : probe := (w.1 + d, w.2).

(** A breaker with threshold 3 and a timeout of a minute, after three
    failed calls, and then after the probe call that follows the
    timeout was let through. *)
Definition tripped : CircuitBreaker * probe :=
  Calls probe_clock (NewCircuitBreaker 3 (60 * Second)) [down; down; down] (0, 0%nat).
Definition probing : CircuitBreaker :=
  (allow tripped.1 (probe_clock (later (61 * Second) tripped.2))).1.

(** The breakers a caller can hold: the one [NewCircuitBreaker] returns,
    and the ones any number of [Call]s leave, whatever the functions and
    the worlds they are called in. *)
Inductive reached {W : Type} (clock : W → Z) (failureThreshold timeout : Z)
  : CircuitBreaker → Prop :=
| reached_new :
    reached clock failureThreshold timeout (NewCircuitBreaker failureThreshold timeout)
| reached_Call cb fn w :
    reached clock failureThreshold timeout cb →
    reached clock failureThreshold timeout (Call clock cb fn w).1.1.

End CircuitBreaker.

(** ** The Redis server behind [internal/cache]

The commands the toolkit sends. Keys hold a string or a hash and may
carry an expiry; an expired key is gone for every command. Times and
durations are in nanoseconds, as [time.Duration] is. A hash field holds
the number whose decimal text Redis stores. [online] says whether the
service reaches the server: while it does not, every call of the
client returns an error and the server is left as it is. *)

Module Redis.

Local Open Scope Z_scope.

Inductive value : Type :=
| VString (s : string)
| VHash (fields : gmap string Z).

Record entry : Type := mkEntry {
  val : value;
  expireAt : option Z;
}.

Record server : Type := mkServer {
  time : Z;
  db : gmap string entry;
  online : bool;
}.

Definition WRONGTYPE : error :=
  errors_New "WRONGTYPE Operation against a key holding the wrong kind of value".

Definition ErrOffline : error :=
  errors_New "dial tcp: connect: connection refused".

Definition expired (now : Z) (e : entry) : bool :=
  match expireAt e with
  | Some t => t <=? now
  | None => false
  end.

(** The entry of a key, if the key is there and has not expired. *)
Definition live (σ : server) (key : string) : option entry :=
  match db σ !! key with
  | Some e => if expired (time σ) e then None else Some e
  | None => None
  end.

Definition put (σ : server) (key : string) (e : entry) : server :=
  {| time := time σ; db := <[key := e]> (db σ); online := online σ |}.

(** go-redis: a zero expiration means the key has no expiry. *)
Definition deadline (σ : server) (expiration : Z) : option Z :=
  if expiration =? 0 then None else Some (time σ + expiration).

(** EXISTS key *)
Definition EXISTS (σ : server) (key : string) : Z :=
  match live σ key with
  | Some _ => 1
  | None => 0
  end.

(** SET key value [EX expiration] *)
Definition SET (σ : server) (key value : string) (expiration : Z) : server :=
  put σ key {| val := VString value; expireAt := deadline σ expiration |}.

(** SET key value NX [EX expiration] *)
Definition SETNX (σ : server) (key value : string) (expiration : Z) : server * bool :=
  match live σ key with
  | Some _ => (σ, false)
  | None =>
      (put σ key {| val := VString value; expireAt := deadline σ expiration |}, true)
  end.

(** DEL key *)
Definition DEL (σ : server) (key : string) : server :=
  {| time := time σ; db := delete key (db σ); online := online σ |}.

(** HMGET key field1 field2 *)
Definition HMGET (σ : server) (key f1 f2 : string) : error + (option Z * option Z) :=
  match live σ key with
  | None => inr (None, None)
  | Some {| val := VHash h |} => inr (h !! f1, h !! f2)
  | Some {| val := VString _ |} => inl WRONGTYPE
  end.

(** HMSET key field1 v1 field2 v2. A hash that is there keeps its other
    fields and its expiry; otherwise a hash without expiry is created. *)
Definition HMSET (σ : server) (key f1 : string) (v1 : Z) (f2 : string) (v2 : Z)
  : error + server :=
  match live σ key with
  | None =>
      inr (put σ key {| val := VHash (<[f2 := v2]> (<[f1 := v1]> ∅));
                        expireAt := None |})
  | Some {| val := VHash h; expireAt := t |} =>
      inr (put σ key {| val := VHash (<[f2 := v2]> (<[f1 := v1]> h));
                        expireAt := t |})
  | Some {| val := VString _ |} => inl WRONGTYPE
  end.

(** EXPIRE key seconds *)
Definition EXPIRE (σ : server) (key : string) (seconds : Z) : server :=
  match live σ key with
  | Some e => put σ key {| val := val e; expireAt := Some (time σ + seconds * Second) |}
  | None => σ
  end.

(** Time passing on the server. *)
Definition tick (d : Z) (σ : server) : server :=
  {| time := time σ + d; db := db σ; online := online σ |}.

(** The connection to the server going down or coming back. *)
Definition connect (b : bool) (σ : server) : server :=
  {| time := time σ; db := db σ; online := b |}.

Definition empty : server := {| time := 0; db := ∅; online := true |}.

(** GET key *)
Definition GET (σ : server) (key : string) : error + option string :=
  match live σ key with
  | None => inr None
  | Some {| val := VString s |} => inr (Some s)
  | Some {| val := VHash _ |} => inl WRONGTYPE
  end.

End Redis.

(** ** [internal/ratelimit/token_bucket.go] *)

Module TokenBucket.

Local Open Scope Z_scope.

Record TokenBucket : Type := mkTokenBucket {
  key : string;
  capacity : Z;
  rate : Z;
}.

Definition NewTokenBucket (key : string) (capacity rate : Z) : TokenBucket :=
  {| key := key; capacity := capacity; rate := rate |}.

(** The Lua script of [Allow], run by the server as one command with
    [KEYS[1] = key] and [ARGV = capacity, rate, now]. [tonumber(x) or d]
    is [default d x]. A failing [redis.call] aborts the script with its
    error; here only a key of the wrong kind makes one fail, and then the
    first one does, before anything is written. Lua computes on doubles and
    Redis keeps their decimal text; both are exact on integers below
    10^14 in magnitude, where the limiter works, and the embedding
    computes on [Z]. *)
Definition script (key : string) (capacity rate now : Z) (σ : Redis.server)
  : Redis.server * (error + Z) :=
  match Redis.HMGET σ key "tokens" "last_time" with
  | inl err => (σ, inl err)
  | inr bucket =>
      let tokens := default capacity bucket.1 in
      let last_time := default now bucket.2 in
      let delta := now - last_time in
      let new_tokens := Z.min capacity (tokens + delta * rate) in
      if 1 <=? new_tokens then
        let new_tokens := new_tokens - 1 in
        match Redis.HMSET σ key "tokens" new_tokens "last_time" now with
        | inl err => (σ, inl err)
        | inr σ1 => (Redis.EXPIRE σ1 key 3600, inr 1)
        end
      else
        match Redis.HMSET σ key "tokens" new_tokens "last_time" now with
        | inl err => (σ, inl err)
        | inr σ1 => (σ1, inr 0)
        end
  end.

(** [cache.RedisClient.Eval(ctx, script, keys, args...)] *)
Definition Eval (key : string) (capacity rate now : Z) (σ : Redis.server)
  : Redis.server * (error + Z) :=
  if Redis.online σ then script key capacity rate now σ
  else (σ, inl Redis.ErrOffline).

(** [Allow], with [now] the reading of [time.Now().Unix()]. *)
Definition Allow (tb : TokenBucket) (now : Z) (σ : Redis.server)
  : Redis.server * (bool * option error) :=
  let '(σ', result) := Eval (key tb) (capacity tb) (rate tb) now σ in
  match result with
  | inl err => (σ', (false, Some err))
  | inr result => (σ', (result =? 1, None))
  end.

(** What the server holds for the bucket: its token count and its last
    refill time. *)
Definition stored (tb : TokenBucket) (σ : Redis.server) : option Z * option Z :=
  match Redis.HMGET σ (key tb) "tokens" "last_time" with
  | inl _ => (None, None)
  | inr bucket => bucket
  end.

(** The servers a bucket can meet: one that has nothing under its key,
    and from there any number of [Allow] calls, each at a time [now] that
    [timely] accepts, with time passing on the server and the connection
    going down and coming back in between. *)
Inductive reachable (tb : TokenBucket) (timely : Redis.server → Z → Prop)
  : Redis.server → Prop :=
| reachable_fresh σ :
    Redis.live σ (key tb) = None → reachable tb timely σ
| reachable_Allow σ now :
    reachable tb timely σ → timely σ now →
    reachable tb timely (Allow tb now σ).1
| reachable_tick σ d :
    reachable tb timely σ → 0 ≤ d → reachable tb timely (Redis.tick d σ)
| reachable_connect σ b :
    reachable tb timely σ → reachable tb timely (Redis.connect b σ).

(** Any reading of the clock. *)
Definition any_time : Redis.server → Z → Prop := fun _ _ => True.

(** A reading that is not before the stored last refill time. *)
Definition not_before (tb : TokenBucket) : Redis.server → Z → Prop :=
  fun σ now => ∀ last, (stored tb σ).2 = Some last → last ≤ now.

(** A sequence of [Allow] calls at the given times. *)
Definition Allows (tb : TokenBucket) (nows : list Z) (σ : Redis.server) : Redis.server :=
  foldl (fun σ now => (Allow tb now σ).1) σ nows.

(** *** A limiter of ten tokens refilled at five a second. *)
Definition limiter : TokenBucket := NewTokenBucket "ratelimit:transfer" 10 5.

(** *** Runs of calls

A run is a list of calls, each made after a time [d] has passed on the
server and at the reading [now] of the caller's clock: [answers] are the
answers in order, [after] is the server the run leaves. *)
Fixpoint answers (tb : TokenBucket) (calls : list (Z * Z)) (σ : Redis.server) : list bool :=
  match calls with
  | [] => []
  | (d, now) :: rest =>
      (Allow tb now (Redis.tick d σ)).2.1
      :: answers tb rest (Allow tb now (Redis.tick d σ)).1
  end.

Fixpoint after (tb : TokenBucket) (calls : list (Z * Z)) (σ : Redis.server) : Redis.server :=
  match calls with
  | [] => σ
  | (d, now) :: rest => after tb rest (Allow tb now (Redis.tick d σ)).1
  end.

(** Every call of the run finds the key of the bucket still there: it has
    not expired since the call before. *)
Fixpoint kept (tb : TokenBucket) (calls : list (Z * Z)) (σ : Redis.server) : Prop :=
  match calls with
  | [] => True
  | (d, now) :: rest =>
      0 ≤ d
      ∧ is_Some (Redis.live (Redis.tick d σ) (key tb))
      ∧ kept tb rest (Allow tb now (Redis.tick d σ)).1
  end.

(** Clock readings that never go back, starting from [prev]. *)
Fixpoint ascending (prev : Z) (nows : list Z) : Prop :=
  match nows with
  | [] => True
  | now :: rest => prev ≤ now ∧ ascending now rest
  end.

(** How many calls were let through. *)
Fixpoint let_through (oks : list bool) : Z :=
  match oks with
  | [] => 0
  | ok :: rest => (if ok then 1 else 0) + let_through rest
  end.

End TokenBucket.

(** ** [internal/middleware/idempotent.go] *)

Module Middleware.

Local Open Scope Z_scope.

(** What the middleware reads of [c.Request]. *)
Record Request : Type := mkRequest {
  Method : string;
  Header : list (string * string);
}.

(** [c.GetHeader(name)]: the first value of the header, or the empty
    string. *)
Definition GetHeader (req : Request) (name : string) : string :=
  match list_find (λ h, h.1 = name) (Header req) with
  | Some (_, h) => h.2
  | None => ""
  end.

(** *** The handler as a sequence of calls

A handler is the tree of the calls it makes on the gin context and on
[internal/cache], each with the continuation that receives its
result. This keeps the order of the calls, so that the calls of two
requests can be interleaved. *)
Inductive handler : Type :=
| Return
| c_Next (k : handler)
| c_JSON (code : Z) (message : string) (k : handler)
| c_Abort (k : handler)
| c_Writer_Status (k : Z → handler)
| cache_Exists (key : string) (k : Z * option error → handler)
| cache_Lock (key : string) (expiration : Z) (k : bool * option error → handler)
| cache_Unlock (key : string) (k : handler)
| cache_Set (key value : string) (expiration : Z) (k : option error → handler).

(** [defer d] in front of [body]: [d] runs when [body] returns. *)
Fixpoint defer (d : handler) (body : handler) : handler :=
  match body with
  | Return => d
  | c_Next k => c_Next (defer d k)
  | c_JSON code message k => c_JSON code message (defer d k)
  | c_Abort k => c_Abort (defer d k)
  | c_Writer_Status k => c_Writer_Status (λ s, defer d (k s))
  | cache_Exists key k => cache_Exists key (λ r, defer d (k r))
  | cache_Lock key expiration k => cache_Lock key expiration (λ r, defer d (k r))
  | cache_Unlock key k => cache_Unlock key (defer d k)
  | cache_Set key value expiration k =>
      cache_Set key value expiration (λ r, defer d (k r))
  end.

Definition StatusBadRequest : Z := 400.
Definition StatusConflict : Z := 409.
Definition StatusTooManyRequests : Z := 429.

(** [fmt.Sprintf("idempotent:%s", idempotentKey)] and
    [fmt.Sprintf("lock:%s", idempotentKey)] *)
Definition redisKey (idempotentKey : string) : string := "idempotent:" +:+ idempotentKey.
Definition lockKey (idempotentKey : string) : string := "lock:" +:+ idempotentKey.

Definition IdempotentMiddleware (req : Request) : handler :=
  if bool_decide (Method req = "GET") || bool_decide (Method req = "HEAD") then
    c_Next Return
  else
    let idempotentKey := GetHeader req "X-Idempotent-Key" in
    if bool_decide (idempotentKey = "") then
      c_JSON StatusBadRequest "缺少幂等性令牌" (c_Abort Return)
    else
      cache_Exists (redisKey idempotentKey) (λ '(exists_, _),
        if 0 <? exists_ then
          c_JSON StatusConflict "请求已处理，请勿重复提交" (c_Abort Return)
        else
          cache_Lock (lockKey idempotentKey) (30 * Second) (λ '(locked, err),
            if bool_decide (err ≠ None) || negb locked then
              c_JSON StatusTooManyRequests "请求处理中，请稍后" (c_Abort Return)
            else
              defer (cache_Unlock (lockKey idempotentKey) Return)
                (c_Next
                   (c_Writer_Status (λ status,
                      if (200 <=? status) && (status <? 300) then
                        cache_Set (redisKey idempotentKey) "1" (24 * Hour)
                          (λ _, Return)
                      else Return))))).

(** *** Running handlers

The gin context of one request: the response status
([c.Writer.Status()], 200 until something is written), the error
responses written with [c.JSON], whether [c.Abort()] was called, and
whether the rest of the chain, the guarded operation, is still to
run. *)
Record Context : Type := mkContext {
status : Z;
json : list (Z * string);
aborted : bool;
pending : bool;
}.

Definition fresh : Context :=
  {| status := 200; json := []; aborted := false; pending := true |}.

(** What a request does to the world outside of its context, in order:
    the commands it sends to Redis, with their answers, and the runs of
    the operation, with the status it responded. *)
Inductive event : Type :=
| EvExists (key : string) (n : Z)
| EvLock (key : string) (locked : bool)
| EvUnlock (key : string)
| EvSet (key value : string) (expiration : Z)
| EvFailed (key : string)
| EvOperation (status : Z).

#[global] Instance event_eq_dec : EqDecision event.
Proof. solve_decision. Defined.

Definition is_operation (ev : event) : bool :=
  match ev with
  | EvOperation _ => true
  | _ => false
  end.

Section WithOperation.

(** The guarded operation: the handlers after the middleware. It works
    on the application state [A] and writes a response with a status. *)
Context {A : Type} (operation : A → A * Z).

Record world : Type := mkWorld {
  redis : Redis.server;
  app : A;
  trace : list (nat * event);
}.

Definition emit (id : nat) (ev : event) (σ : Redis.server) (w : world) : world :=
  {| redis := σ; app := app w; trace := trace w ++ [(id, ev)] |}.

(** What is left of the chain runs once, unless the request was
    aborted: inside [c.Next()], or when the middleware returns without
    having called it. *)
Definition run_pending (id : nat) (c : Context) (w : world) : Context * world :=
  if pending c && negb (aborted c) then
    let '(a, s) := operation (app w) in
    ({| status := s; json := json c; aborted := aborted c; pending := false |},
     {| redis := redis w; app := a; trace := trace w ++ [(id, EvOperation s)] |})
  else (c, w).

Definition do_JSON (code : Z) (message : string) (c : Context) : Context :=
  {| status := code; json := json c ++ [(code, message)];
     aborted := aborted c; pending := pending c |}.

Definition do_Abort (c : Context) : Context :=
  {| status := status c; json := json c; aborted := true; pending := pending c |}.

(** A call of the client that does not reach the server. *)
Definition failed (id : nat) (key : string) (w : world) : world :=
  emit id (EvFailed key) (redis w) w.

(** [cache.Exists], [cache.Lock], [cache.Unlock] and [cache.Set]. *)
Definition do_Exists (id : nat) (key : string) (w : world) : world * (Z * option error) :=
  if Redis.online (redis w) then
    let n := Redis.EXISTS (redis w) key in
    (emit id (EvExists key n) (redis w) w, (n, None))
  else (failed id key w, (0, Some Redis.ErrOffline)).

Definition do_Lock (id : nat) (key : string) (expiration : Z) (w : world)
  : world * (bool * option error) :=
  if Redis.online (redis w) then
    let '(σ, locked) := Redis.SETNX (redis w) key "locked" expiration in
    (emit id (EvLock key locked) σ w, (locked, None))
  else (failed id key w, (false, Some Redis.ErrOffline)).

Definition do_Unlock (id : nat) (key : string) (w : world) : world :=
  if Redis.online (redis w) then
    emit id (EvUnlock key) (Redis.DEL (redis w) key) w
  else failed id key w.

Definition do_Set (id : nat) (key value : string) (expiration : Z) (w : world)
  : world * option error :=
  if Redis.online (redis w) then
    (emit id (EvSet key value expiration)
       (Redis.SET (redis w) key value expiration) w, None)
  else (failed id key w, Some Redis.ErrOffline).

(** A handler run from start to end with nothing in between. *)
Fixpoint exec (id : nat) (h : handler) (c : Context) (w : world) : Context * world :=
  match h with
  | Return => run_pending id c w
  | c_Next k => let '(c', w') := run_pending id c w in exec id k c' w'
  | c_JSON code message k => exec id k (do_JSON code message c) w
  | c_Abort k => exec id k (do_Abort c) w
  | c_Writer_Status k => exec id (k (status c)) c w
  | cache_Exists key k => let '(w', r) := do_Exists id key w in exec id (k r) c w'
  | cache_Lock key expiration k =>
      let '(w', r) := do_Lock id key expiration w in exec id (k r) c w'
  | cache_Unlock key k => exec id k c (do_Unlock id key w)
  | cache_Set key value expiration k =>
      let '(w', r) := do_Set id key value expiration w in exec id (k r) c w'
  end.

(** One request served on its own. *)
Definition serve (id : nat) (req : Request) (w : world) : Context * world :=
  exec id (IdempotentMiddleware req) fresh w.

(** *** Requests served at the same time

A request in flight is its context and what is left of its
handler; [finished] once the handler has returned and the chain
has been run. One step performs the next call. *)
Record thread : Type := mkThread {
id : nat;
ctx : Context;
code : handler;
finished : bool;
}.

Definition start (id : nat) (req : Request) : thread :=
  {| id := id; ctx := fresh; code := IdempotentMiddleware req; finished := false |}.

Definition step (t : thread) (w : world) : thread * world :=
  if finished t then (t, w)
  else
    let continue c k w := ({| id := id t; ctx := c; code := k; finished := false |}, w) in
    match code t with
    | Return =>
        let '(c', w') := run_pending (id t) (ctx t) w in
        ({| id := id t; ctx := c'; code := Return; finished := true |}, w')
    | c_Next k => let '(c', w') := run_pending (id t) (ctx t) w in continue c' k w'
    | c_JSON code message k => continue (do_JSON code message (ctx t)) k w
    | c_Abort k => continue (do_Abort (ctx t)) k w
    | c_Writer_Status k => continue (ctx t) (k (status (ctx t))) w
    | cache_Exists key k =>
        let '(w', r) := do_Exists (id t) key w in continue (ctx t) (k r) w'
    | cache_Lock key expiration k =>
        let '(w', r) := do_Lock (id t) key expiration w in continue (ctx t) (k r) w'
    | cache_Unlock key k => continue (ctx t) k (do_Unlock (id t) key w)
    | cache_Set key value expiration k =>
        let '(w', r) := do_Set (id t) key value expiration w in continue (ctx t) (k r) w'
    end.

(** A schedule says which request moves next, that time passes, or
    that the connection to Redis goes down or comes back. *)
Inductive move : Type :=
| Step (i : nat)
| Tick (d : Z)
| Connect (b : bool).

Fixpoint schedule (moves : list move) (ts : list thread) (w : world)
  : list thread * world :=
  match moves with
  | [] => (ts, w)
  | Step i :: moves' =>
      match ts !! i with
      | Some t => let '(t', w') := step t w in schedule moves' (<[i := t']> ts) w'
      | None => schedule moves' ts w
      end
  | Tick d :: moves' =>
      schedule moves' ts
        {| redis := Redis.tick d (redis w); app := app w; trace := trace w |}
  | Connect b :: moves' =>
      schedule moves' ts
        {| redis := Redis.connect b (redis w); app := app w; trace := trace w |}
  end.

(** Time passing between two requests. *)
Definition wait (d : Z) (w : world) : world :=
  {| redis := Redis.tick d (redis w); app := app w; trace := trace w |}.

(** How many times the operation ran. *)
Definition operations (w : world) : nat :=
  length (filter (λ e : nat * event, is_operation e.2) (trace w)).

End WithOperation.

Arguments world : clear implicits.

(** *** A transfer endpoint: the state is the number of transfers made;
    [submit] makes one and answers 200, [refuse] makes none and answers
    500. *)
Definition submit : nat → nat * Z := fun n => (S n, 200).
Definition refuse : nat → nat * Z := fun n => (n, 500).

(** A request that the middleware guards: a write that carries a key. *)
Definition guarded (req : Request) (idempotentKey : string) : Prop :=
  Method req ≠ "GET" ∧ Method req ≠ "HEAD"
  ∧ GetHeader req "X-Idempotent-Key" = idempotentKey ∧ idempotentKey ≠ "".

Definition post (idempotentKey : string) : Request :=
  {| Method := "POST"; Header := [("X-Idempotent-Key", idempotentKey)] |}.

Definition idle : world nat := {| redis := Redis.empty; app := 0%nat; trace := [] |}.

(** The same transfer submitted twice at the same time, and a schedule
    in which request 0 makes its check, request 1 is then served to its
    unlock, and request 0 goes on to take the lock. *)
Definition duplicates : list thread :=
  [start 0 (post "transfer-42"); start 1 (post "transfer-42")].

Definition overtaken : list move :=
  [Step 0] ++ replicate 6 (Step 1) ++ [Step 0].

End Middleware.

(** ** [internal/service/transfer.go] *)

Module Transfer.

Import Saga.

Section WithService.

(** [U] is what the accounts and the transfer log live in; [Amount] stands
    for the [float64] amount, which [Transfer] only passes on. The four
    methods of [TransferService] that do the work are placeholders in the
    document (each returns nil); [Transfer] is taken over any
    implementation of them. *)
Context {U Amount : Type}.

Record TransferService : Type := mkService {
  debitAccount : string → Amount → action U;
  creditAccount : string → Amount → action U;
  logTransfer : string → string → Amount → action U;
  deleteTransferLog : string → string → Amount → action U;
}.

(** The placeholders of the document. *)
Definition placeholder : TransferService :=
  {| debitAccount := fun _ _ u => (u, None);
     creditAccount := fun _ _ u => (u, None);
     logTransfer := fun _ _ _ u => (u, None);
     deleteTransferLog := fun _ _ _ u => (u, None) |}.

Definition Transfer (s : TransferService) (fromAccount toAccount : string)
    (amount : Amount) (w : World U) : option (World U * option error) :=
  let saga := NewSaga in
  let saga :=
    AddStep saga
      {| Name := "扣减源账户";
         Do := debitAccount s fromAccount amount;
         Compensate := creditAccount s fromAccount amount |} in
  let saga :=
    AddStep saga
      {| Name := "增加目标账户";
         Do := creditAccount s toAccount amount;
         Compensate := debitAccount s toAccount amount |} in
  let saga :=
    AddStep saga
      {| Name := "记录转账日志";
         Do := logTransfer s fromAccount toAccount amount;
         Compensate := deleteTransferLog s fromAccount toAccount amount |} in
  '(_, w', err) ← Execute saga w;
  Some (w', err).

End WithService.

Arguments TransferService : clear implicits.

(** *** Observing the service

The methods of a service are wrapped so that each call and its result is
noted in a list kept next to the state. *)
Inductive operation {Amount : Type} : Type :=
| Debit (account : string) (amount : Amount)
| Credit (account : string) (amount : Amount)
| LogTransfer (fromAccount toAccount : string) (amount : Amount)
| DeleteTransferLog (fromAccount toAccount : string) (amount : Amount).

Arguments operation : clear implicits.

Definition noted {U Amount} (o : operation Amount) (f : action U)
  : action (U * list (operation Amount * option error)) :=
  fun '(u, ops) => let '(u', r) := f u in ((u', ops ++ [(o, r)]), r).

Definition noting {U Amount} (s : TransferService U Amount)
  : TransferService (U * list (operation Amount * option error)) Amount :=
  {| debitAccount := fun account amount => noted (Debit account amount) (debitAccount s account amount);
     creditAccount := fun account amount => noted (Credit account amount) (creditAccount s account amount);
     logTransfer := fun a b amount => noted (LogTransfer a b amount) (logTransfer s a b amount);
     deleteTransferLog := fun a b amount =>
       noted (DeleteTransferLog a b amount) (deleteTransferLog s a b amount) |}.

(** [Transfer] on the wrapped service, from state [u] and nothing noted:
    the operations made, and the error returned. *)
Definition made {U Amount} (s : TransferService U Amount) (fromAccount toAccount : string)
    (amount : Amount) (u : U)
  : option (list (operation Amount * option error) * option error) :=
  '(w', err) ← Transfer (noting s) fromAccount toAccount amount
                 {| user := (u, []); stdout := [] |};
  Some ((user w').2, err).

(** *** Accounts with balances: a debit fails on insufficient funds, a
    debit or credit fails on an account that does not exist; nothing else
    is logged. *)
Definition bank : TransferService (gmap string N) N :=
  {| debitAccount := fun account amount accounts =>
       match accounts !! account with
       | Some balance =>
           if (amount <=? balance)%N
           then (<[account := (balance - amount)%N]> accounts, None)
           else (accounts, Some (errors_New "insufficient funds"))
       | None => (accounts, Some (errors_New "no such account"))
       end;
     creditAccount := fun account amount accounts =>
       match accounts !! account with
       | Some balance => (<[account := (balance + amount)%N]> accounts, None)
       | None => (accounts, Some (errors_New "no such account"))
       end;
     logTransfer := fun _ _ _ accounts => (accounts, None);
     deleteTransferLog := fun _ _ _ accounts => (accounts, None) |}.

End Transfer.

(** ** [internal/cache/redis.go] *)

Module Cache.

Local Open Scope Z_scope.

(** [redis.Nil], the error of a read that finds no key. *)
Definition Nil : error := errors_New "redis: nil".

Definition ErrNoKeys : error :=
  errors_New "ERR wrong number of arguments for 'del' command".

(** Each helper sends one command on the global client; a command that
    does not reach the server returns the zero value and an error. *)
Definition Get (key : string) (σ : Redis.server) : string * option error :=
  if Redis.online σ then
    match Redis.GET σ key with
    | inr (Some s) => (s, None)
    | inr None => ("", Some Nil)
    | inl e => ("", Some e)
    end
  else ("", Some Redis.ErrOffline).

(** [Set]; the name is taken in Rocq. *)
Definition Set_ (key value : string) (expiration : Z) (σ : Redis.server)
  : Redis.server * option error :=
  if Redis.online σ then (Redis.SET σ key value expiration, None)
  else (σ, Some Redis.ErrOffline).

Definition Delete (keys : list string) (σ : Redis.server) : Redis.server * option error :=
  if Redis.online σ then
    match keys with
    | [] => (σ, Some ErrNoKeys)
    | _ => (foldl Redis.DEL σ keys, None)
    end
  else (σ, Some Redis.ErrOffline).

Definition Lock (key : string) (expiration : Z) (σ : Redis.server)
  : Redis.server * (bool * option error) :=
  if Redis.online σ then
    let '(σ', locked) := Redis.SETNX σ key "locked" expiration in (σ', (locked, None))
  else (σ, (false, Some Redis.ErrOffline)).

Definition Unlock (key : string) (σ : Redis.server) : Redis.server * option error :=
  if Redis.online σ then (Redis.DEL σ key, None) else (σ, Some Redis.ErrOffline).

End Cache.

(** ** [internal/consistency/cache.go] *)

Module Consistency.

Local Open Scope Z_scope.

Section WithData.

(** [D] is the database the loaders and updaters work on, [V] the values
    a loader returns as [interface{}]. The Redis client writes a value
    as a string if it can ([marshal]); for a value it cannot write, [Set]
    fails before anything is sent. *)
Context {D V : Type} (marshal : V → option string).

(** The [interface{}] that [Get] returns: the string read from the cache,
    or the value the loader returned. *)
Inductive data : Type :=
| Cached (val : string)
| Loaded (value : V).

(** [err == nil && val != ""] *)
Definition hit (r : string * option error) : bool :=
  match r with
  | (val, None) => negb (bool_decide (val = ""))
  | (_, Some _) => false
  end.

Definition lockKey (key : string) : string := "lock:" +:+ key.

(** [CacheAside.Get]. [fuel] bounds the number of calls of [Get], the
    first one and the retries; [None] is a run that has not returned
    within them. [time.Sleep] lets 100 ms pass on the server's clock;
    [randInt] is the number drawn by [randInt(300)]. *)
Fixpoint Get (fuel : nat) (key : string) (loader : D → D * (error + V)) (randInt : Z)
    (σ : Redis.server) (d : D) : option (Redis.server * D * (error + data)) :=
  match fuel with
  | O => None
  | S fuel' =>
      let r := Cache.Get key σ in
      if hit r then Some (σ, d, inr (Cached r.1))
      else
        let '(σ1, (locked, _)) := Cache.Lock (lockKey key) (10 * Second) σ in
        if negb locked then
          Get fuel' key loader randInt (Redis.tick (100 * Millisecond) σ1) d
        else
          let unlock σ' := (Cache.Unlock (lockKey key) σ').1 in
          let r := Cache.Get key σ1 in
          if hit r then Some (unlock σ1, d, inr (Cached r.1))
          else
            let '(d', loaded) := loader d in
            match loaded with
            | inl err => Some (unlock σ1, d', inl err)
            | inr value =>
                let expiration := (300 + randInt) * Second in
                let σ2 :=
                  match marshal value with
                  | Some s => (Cache.Set_ key s expiration σ1).1
                  | None => σ1
                  end in
                Some (unlock σ2, d', inr (Loaded value))
            end
  end.

(** [CacheAside.Update] *)
Definition Update (key : string) (updater : D → D * option error)
    (σ : Redis.server) (d : D) : Redis.server * D * option error :=
  let '(d', err) := updater d in
  match err with
  | Some e => (σ, d', Some e)
  | None => ((Cache.Delete [key] σ).1, d', None)
  end.

(** [DelayedDoubleDelete]. The last component is the goroutine the call
    leaves behind, if any: the key it deletes once [delay] has passed. *)
Definition delay : Z := 500 * Millisecond.

Definition DelayedDoubleDelete (key : string) (updater : D → D * option error)
    (σ : Redis.server) (d : D) : Redis.server * D * option error * option string :=
  let σ1 := (Cache.Delete [key] σ).1 in
  let '(d', err) := updater d in
  match err with
  | Some e => (σ1, d', Some e, None)
  | None => (σ1, d', None, Some key)
  end.

(** The goroutine, run on the server as it is by then. *)
Definition second_delete (key : string) (σ : Redis.server) : Redis.server :=
  (Cache.Delete [key] σ).1.

End WithData.

Arguments data : clear implicits.

(** *** A table of prices behind the cache: loaders that read a row and
    count the reads, updaters that write one. *)
Record table : Type := mkTable { rows : gmap string string; reads : nat }.

Definition ErrNoRows : error := errors_New "sql: no rows in result set".

Definition read (name : string) (t : table) : table * (error + string) :=
  ({| rows := rows t; reads := S (reads t) |},
   match rows t !! name with
   | Some v => inr v
   | None => inl ErrNoRows
   end).

Definition write (name v : string) (t : table) : table * option error :=
  ({| rows := <[name := v]> (rows t); reads := reads t |}, None).

Definition prices : table := {| rows := {[ "sku:1" := "42" ]}; reads := 0 |}.

End Consistency.


(* ===================================================================== *)
(** * Part II: theorems                                                   *)
(* ===================================================================== *)

(** ** Saga coordinator *)

Section SagaFacts.

Import Saga.

Context {U : Type}.
Implicit Types (sts : list (Step U)) (s : Saga (U * list event))
  (w : World (U * list event)) (log : list event).

Lemma steps_foldl_AddStep {V} (l : list (Step V)) (s0 : Saga V) :
  steps (foldl AddStep s0 l) = steps s0 ++ l
  ∧ executedSteps (foldl AddStep s0 l) = executedSteps s0.
Proof.
  revert s0. induction l as [|st l IH]; intros s0; simpl.
  - by rewrite app_nil_r.
  - destruct (IH (AddStep s0 st)) as [-> ->]. simpl. by rewrite <- app_assoc.
Qed.

Lemma steps_build {V} (l : list (Step V)) :
  steps (build l) = l ∧ executedSteps (build l) = [].
Proof. apply (steps_foldl_AddStep l NewSaga). Qed.

Lemma compensation_failures_app log1 log2 :
  compensation_failures (log1 ++ log2)
  = compensation_failures log1 ++ compensation_failures log2.
Proof. apply omap_app. Qed.

Lemma failure_lines_cons sts i r log :
  failure_lines sts ((CallCompensate i, r) :: log)
  = match r with
    | Some e => [compensate_line (name_of sts i) e]
    | None => []
    end ++ failure_lines sts log.
Proof. unfold failure_lines. by destruct r. Qed.

(** The rollback of a saga whose executed list is [0, ..., m-1]: from
    position [n] downwards it calls the compensations [n-1, ..., 0], each
    once, whatever they return, and prints one line per failure. *)
Lemma compensate_loop_spied sts s m n w :
  steps s = imap spy sts →
  executedSteps s = seq 0 m →
  n ≤ m → m ≤ length sts →
  ∃ u' added,
    compensate_loop s n w
      = Some {| user := (u', (user w).2 ++ added);
                stdout := stdout w ++ failure_lines sts added |}
    ∧ calls added = CallCompensate <$> reverse (seq 0 n).
Proof.
  intros Hst Hex Hn Hm. revert w.
  induction n as [|i IH]; intros [[u log] out]; simpl.
  - exists u, []. by rewrite !app_nil_r.
  - rewrite Hex, Hst, lookup_seq_lt by lia. simpl.
    rewrite list_lookup_imap.
    destruct (lookup_lt_is_Some_2 sts i ltac:(lia)) as [st Hi].
    rewrite Hi. simpl.
    destruct (Compensate st u) as [u1 r] eqn:Hc.
    destruct (IH ltac:(lia)
                {| user := (u1, log ++ [(CallCompensate i, r)]);
                   stdout := match r with
                             | Some e => out ++ [compensate_line (Name st) e]
                             | None => out
                             end |}) as (u' & added & Hrun & Hcalls).
    exists u', ((CallCompensate i, r) :: added). split.
    + destruct r as [e|]; rewrite Hrun; simpl;
        rewrite failure_lines_cons; unfold name_of; rewrite ?Hi; simpl;
        by rewrite <- ?app_assoc.
    + unfold calls in *. change (0 :: seq 1 i) with (seq 0 (S i)).
      rewrite seq_S, reverse_app, fmap_cons, Hcalls. done.
Qed.

(** The forward loop from index [i], where the steps before [i] have
    succeeded. Either every remaining action succeeds, or the first
    failing one, [k], stops the loop and the rollback of [0..k-1]
    follows. *)
Lemma Execute_loop_spied sts rest i s w :
  steps s = imap spy sts →
  executedSteps s = seq 0 i →
  drop i (imap spy sts) = rest →
  ∃ s' u' r added,
    Execute_loop s i rest w
      = Some (s', {| user := (u', (user w).2 ++ added);
                     stdout := stdout w ++ failure_lines sts added |}, r)
    ∧ ((r = None ∧ added = done_from i (length rest))
       ∨ (∃ k e rolled,
            i ≤ k < length sts
            ∧ r = Some (step_failed (name_of sts k) e)
            ∧ added = done_from i (k - i) ++ (CallDo k, Some e) :: rolled
            ∧ calls rolled = CallCompensate <$> reverse (seq 0 k))).
Proof.
  intros Hst Hex Hrest. revert i s w Hst Hex Hrest.
  induction rest as [|step rest IH]; intros i s [[u log] out] Hst Hex Hrest; simpl.
  - exists s, u, None, []. rewrite !app_nil_r. split; [done | by left].
  - assert (Hlen : i < length sts).
    { apply (f_equal length) in Hrest.
      rewrite length_drop, length_imap in Hrest. simpl in Hrest. lia. }
    assert (Hstep : imap spy sts !! i = Some step).
    { rewrite <- (Nat.add_0_r i), <- lookup_drop, Hrest. done. }
    rewrite list_lookup_imap in Hstep.
    destruct (sts !! i) as [st|] eqn:Hi; [|done].
    injection Hstep as <-. simpl.
    destruct (Do st u) as [u1 [e|]] eqn:Hdo.
    + (* the action of step [i] fails *)
      destruct (compensate_loop_spied sts s i i
                  {| user := (u1, log ++ [(CallDo i, Some e)]); stdout := out |}
                  Hst Hex ltac:(lia) ltac:(lia)) as (u' & rolled & Hc & Hcalls).
      unfold compensate. rewrite Hex, length_seq, Hc. simpl.
      exists s, u', (Some (step_failed (Name st) e)), ((CallDo i, Some e) :: rolled).
      split.
      * do 3 f_equal; by rewrite <- ?app_assoc.
      * right. exists i, e, rolled. rewrite Nat.sub_diag. unfold name_of.
        rewrite Hi. done.
    + (* it succeeds: on to step [i+1] *)
      destruct (IH (S i)
                  {| steps := steps s; executedSteps := executedSteps s ++ [i] |}
                  {| user := (u1, log ++ [(CallDo i, None)]); stdout := out |})
        as (s' & u' & r & added & Hrun & Hcases).
      { done. }
      { cbn [executedSteps]. by rewrite Hex, seq_S. }
      { replace (S i) with (i + 1) by lia. by rewrite <- drop_drop, Hrest. }
      rewrite Hrun. simpl.
      exists s', u', r, ((CallDo i, None) :: added). split.
      * do 3 f_equal; by rewrite <- ?app_assoc.
      * destruct Hcases as [[-> ->] | (k & e & rolled & Hk & -> & -> & Hcalls)].
        -- left. done.
        -- right. exists k, e, rolled. split; [lia|]. split; [done|]. split; [|done].
           replace (k - i) with (S (k - S i)) by lia. done.
Qed.

Lemma observe_cases sts u :
  ∃ s' u' r log,
    observe sts u
      = Some (s', {| user := (u', log); stdout := failure_lines sts log |}, r)
    ∧ ((r = None ∧ log = done_from 0 (length sts))
       ∨ (∃ k e rolled,
            k < length sts
            ∧ r = Some (step_failed (name_of sts k) e)
            ∧ log = done_from 0 k ++ (CallDo k, Some e) :: rolled
            ∧ calls rolled = CallCompensate <$> reverse (seq 0 k))).
Proof.
  unfold observe, Execute.
  destruct (steps_build (imap spy sts)) as [Hst Hex].
  destruct (Execute_loop_spied sts (imap spy sts) 0 (build (imap spy sts))
              {| user := (u, []); stdout := [] |} Hst Hex eq_refl)
    as (s' & u' & r & added & Hrun & Hcases).
  rewrite Hst, Hrun. simpl.
  exists s', u', r, added. split; [done|].
  destruct Hcases as [[-> ->] | (k & e & rolled & Hk & -> & -> & Hcalls)].
  - left. by rewrite length_imap.
  - right. exists k, e, rolled. rewrite Nat.sub_0_r. repeat split; [lia|done].
Qed.

Lemma calls_done_from i n : calls (done_from i n) = CallDo <$> seq i n.
Proof. unfold calls, done_from. rewrite <- list_fmap_compose. done. Qed.

Lemma CallDo_failed_in_done_from k e i n : (CallDo k, Some e) ∉ done_from i n.
Proof.
  unfold done_from. intros (j & Heq & _)%list_elem_of_fmap. discriminate.
Qed.

Lemma CallDo_not_rolled (c : call) r (rolled : list event) (l : list nat) k :
  calls rolled = CallCompensate <$> l → (CallDo k, r) ∉ rolled.
Proof.
  intros Hcalls Hin.
  assert (CallDo k ∈ calls rolled) as Hc.
  { unfold calls. apply list_elem_of_fmap. by exists (CallDo k, r). }
  rewrite Hcalls in Hc. apply list_elem_of_fmap in Hc as (j & Heq & _).
  discriminate.
Qed.

(** Counting in the call sequence of a failed run. *)
Lemma count_occ_fmap_seq (f : nat → call) i a n :
  (∀ x y, f x = f y → x = y) →
  count_occ call_eq_dec (f <$> seq a n) (f i)
  = if decide (a ≤ i < a + n) then 1 else 0.
Proof.
  intros Hinj. revert a. induction n as [|n IH]; intros a.
  - simpl. case_decide; [lia|done].
  - cbn [seq]. rewrite fmap_cons. destruct (decide (a = i)) as [->|Hne].
    + rewrite count_occ_cons_eq, IH by done. repeat case_decide; lia.
    + rewrite count_occ_cons_neq, IH by (intros ?%Hinj; done).
      repeat case_decide; lia.
Qed.

Lemma count_occ_other (f : nat → call) (c : call) (l : list nat) :
  (∀ j, f j ≠ c) → count_occ call_eq_dec (f <$> l) c = 0.
Proof.
  intros Hf. induction l as [|j l IH]; [done|].
  rewrite fmap_cons, count_occ_cons_neq; [exact IH | apply Hf].
Qed.

Lemma reverse_is_rev {A} (l : list A) : reverse l = rev l.
Proof. unfold reverse. symmetry. apply rev_alt. Qed.

End SagaFacts.

(** A run in which the action of step [k] failed with [e]: the shape of
    its result and of its log. *)
Lemma saga_run_failed {U} (sts : list (Saga.Step U)) (u : U) (k : nat) (e : error) :
  (Saga.CallDo k, Some e) ∈ Saga.log_of (Saga.observe sts u) →
  ∃ s' u' rolled,
    Saga.observe sts u
      = Some (s',
              {| Saga.user := (u', Saga.done_from 0 k ++ (Saga.CallDo k, Some e) :: rolled);
                 Saga.stdout :=
                   Saga.failure_lines sts
                     (Saga.done_from 0 k ++ (Saga.CallDo k, Some e) :: rolled) |},
              Some (Saga.step_failed (Saga.name_of sts k) e))
    ∧ Saga.calls rolled = Saga.CallCompensate <$> reverse (seq 0 k).
Proof.
  intros Hin.
  destruct (observe_cases sts u) as (s' & u' & r & log & Hrun & Hcases).
  rewrite Hrun in Hin. simpl in Hin.
  destruct Hcases as [[-> ->] | (k' & e' & rolled & Hk & -> & -> & Hcalls)].
  { by apply CallDo_failed_in_done_from in Hin. }
  assert (k' = k ∧ e' = e) as [-> ->].
  { apply elem_of_app in Hin as [Hin | Hin].
    - by apply CallDo_failed_in_done_from in Hin.
    - apply elem_of_cons in Hin as [[= -> ->] | Hin]; [done|].
      by apply (CallDo_not_rolled (Saga.CallDo k) _ _ _ _ Hcalls) in Hin. }
  by exists s', u', rolled.
Qed.

Lemma calls_failed_run k e (rolled : list Saga.event) :
  Saga.calls rolled = Saga.CallCompensate <$> reverse (seq 0 k) →
  Saga.calls (Saga.done_from 0 k ++ (Saga.CallDo k, Some e) :: rolled)
  = (Saga.CallDo <$> seq 0 (S k)) ++ (Saga.CallCompensate <$> reverse (seq 0 k)).
Proof.
  intros Hcalls. unfold Saga.calls in *. rewrite fmap_app, fmap_cons, Hcalls.
  fold (Saga.calls (Saga.done_from 0 k)). rewrite calls_done_from.
  rewrite seq_S, fmap_app. simpl. by rewrite <- app_assoc.
Qed.

(** C1. When the action of step [k] fails during [Execute] (the log of the
    run holds a call of step [k]'s action that returned an error), the run
    returns an error and its calls are exactly: the actions of steps
    [0..k], in that order, then the compensations of steps [k-1..0], in
    that order. So each action up to [k] and each compensation before [k]
    ran exactly once, no later action ran, and neither the compensation of
    [k] nor any later one ran. *)
Theorem saga_failed_step_calls {U} (sts : list (Saga.Step U)) (u : U) (k : nat) (e : error) :
  (Saga.CallDo k, Some e) ∈ Saga.log_of (Saga.observe sts u) →
  ∃ s' w' err,
    Saga.observe sts u = Some (s', w', Some err)
    ∧ Saga.calls (Saga.user w').2
      = (Saga.CallDo <$> seq 0 (S k)) ++ (Saga.CallCompensate <$> reverse (seq 0 k))
    ∧ (∀ i, Saga.times (Saga.CallDo i) (Saga.user w').2 = if decide (i ≤ k) then 1 else 0)
    ∧ (∀ i, Saga.times (Saga.CallCompensate i) (Saga.user w').2
            = if decide (i < k) then 1 else 0).
Proof.
  intros Hin.
  destruct (saga_run_failed sts u k e Hin) as (s' & u' & rolled & Hrun & Hcalls).
  eexists _, _, _. split; [exact Hrun|]. simpl.
  pose proof (calls_failed_run k e rolled Hcalls) as Hseq.
  split; [exact Hseq|]. unfold Saga.times. rewrite Hseq. split; intros i.
  - rewrite count_occ_app, count_occ_fmap_seq, count_occ_other by congruence.
    repeat case_decide; lia.
  - rewrite count_occ_app, count_occ_other by done.
    rewrite fmap_reverse, reverse_is_rev, count_occ_rev.
    rewrite count_occ_fmap_seq by congruence. repeat case_decide; lia.
Qed.

Lemma saga_failed_step_calls_witness :
  (Saga.CallDo 2, Some (errors_New "disk full"))
    ∈ Saga.log_of (Saga.observe Saga.transfer 0)
  ∧ ∃ s' w' err,
      Saga.observe Saga.transfer 0 = Some (s', w', Some err)
      ∧ Saga.calls (Saga.user w').2
        = (Saga.CallDo <$> seq 0 3) ++ (Saga.CallCompensate <$> reverse (seq 0 2))
      ∧ (∀ i, Saga.times (Saga.CallDo i) (Saga.user w').2
              = if decide (i ≤ 2) then 1 else 0)
      ∧ (∀ i, Saga.times (Saga.CallCompensate i) (Saga.user w').2
              = if decide (i < 2) then 1 else 0).
Proof.
  assert (Hfail : (Saga.CallDo 2, Some (errors_New "disk full"))
                    ∈ Saga.log_of (Saga.observe Saga.transfer 0)).
  { vm_compute. set_solver. }
  split; [exact Hfail|].
  exact (saga_failed_step_calls Saga.transfer 0 2 (errors_New "disk full") Hfail).
Defined.

(** C5, as the code has it. When the action of step [k] fails with [e],
    [Execute] returns exactly the error built from the name of step [k] and
    [e], which it wraps; nothing else is part of it. Every compensation
    of the steps before [k] is still called, in reverse order, whether or
    not earlier compensations failed, and each compensation failure is
    written as one line on the standard output, in the order of the
    calls. *)
Theorem saga_failed_step_report {U} (sts : list (Saga.Step U)) (u : U) (k : nat) (e : error) :
  (Saga.CallDo k, Some e) ∈ Saga.log_of (Saga.observe sts u) →
  ∃ s' w',
    Saga.observe sts u = Some (s', w', Some (Saga.step_failed (Saga.name_of sts k) e))
    ∧ chain (Saga.step_failed (Saga.name_of sts k) e)
      = Saga.step_failed (Saga.name_of sts k) e :: chain e
    ∧ Saga.calls (Saga.user w').2
      = (Saga.CallDo <$> seq 0 (S k)) ++ (Saga.CallCompensate <$> reverse (seq 0 k))
    ∧ Saga.stdout w' = Saga.failure_lines sts (Saga.user w').2.
Proof.
  intros Hin.
  destruct (saga_run_failed sts u k e Hin) as (s' & u' & rolled & Hrun & Hcalls).
  eexists _, _. split; [exact Hrun|]. split; [done|]. split; [|done].
  by apply calls_failed_run.
Qed.

Lemma saga_failed_step_report_witness :
  (Saga.CallDo 2, Some (errors_New "disk full"))
    ∈ Saga.log_of (Saga.observe Saga.transfer 0)
  ∧ ∃ s' w',
      Saga.observe Saga.transfer 0
        = Some (s', w', Some (Saga.step_failed (Saga.name_of Saga.transfer 2)
                                (errors_New "disk full")))
      ∧ chain (Saga.step_failed (Saga.name_of Saga.transfer 2) (errors_New "disk full"))
        = Saga.step_failed (Saga.name_of Saga.transfer 2) (errors_New "disk full")
            :: chain (errors_New "disk full")
      ∧ Saga.calls (Saga.user w').2
        = (Saga.CallDo <$> seq 0 3) ++ (Saga.CallCompensate <$> reverse (seq 0 2))
      ∧ Saga.stdout w' = Saga.failure_lines Saga.transfer (Saga.user w').2.
Proof.
  assert (Hfail : (Saga.CallDo 2, Some (errors_New "disk full"))
                    ∈ Saga.log_of (Saga.observe Saga.transfer 0)).
  { vm_compute. set_solver. }
  split; [exact Hfail|].
  exact (saga_failed_step_report Saga.transfer 0 2 (errors_New "disk full") Hfail).
Defined.

(** C5, as the specification words it, fails: in the three-step transfer
    the compensation of step 1 fails with "reversal failed" after the
    action of step 2 failed, and the error [Execute] returns neither wraps
    that compensation error nor mentions it. *)
Lemma saga_compensation_error_not_returned :
  ∃ s' w' err,
    Saga.observe Saga.transfer 0 = Some (s', w', Some err)
    ∧ (1%nat, errors_New "reversal failed")
        ∈ Saga.compensation_failures (Saga.user w').2
    ∧ ¬ Saga.reported err (errors_New "reversal failed").
Proof.
  eexists _, _, _. split; [vm_compute; reflexivity|]. split.
  - vm_compute. set_solver.
  - intros [Hin | Hsub].
    + revert Hin. apply (bool_decide_eq_false_1 _). vm_compute. reflexivity.
    + vm_compute in Hsub. by destruct Hsub.
Qed.

(** ** Circuit breaker *)

Section BreakerFacts.

Import CircuitBreaker.
Local Open Scope Z_scope.

Lemma incr_small z : MinInt ≤ z < MaxInt → incr z = z + 1.
Proof.
  unfold incr, wrap, MinInt, MaxInt.
  change (2 ^ 63) with 9223372036854775808.
  change (2 ^ 64) with 18446744073709551616.
  intros Hz. rewrite Z.mod_small; lia.
Qed.

Context {W : Type} (clock : W → Z).
Implicit Types (cb : CircuitBreaker) (fn : @protected W) (w : W).

Lemma Call_allowed cb fn w :
  state cb ≠ StateOpen →
  Call clock cb fn w = (record cb (fn w).2 (clock (fn w).1), (fn w).1, (fn w).2).
Proof.
  intros Hst. unfold Call, allow.
  destruct (state cb); [|done|]; simpl; by destruct (fn w).
Qed.

(** A failure counted on a closed breaker, below the threshold and at it. *)
Lemma record_closed_failure cb e now :
  state cb = StateClosed →
  MinInt ≤ failureCount cb < MaxInt →
  record cb (Some e) now
  = if failureThreshold cb <=? failureCount cb + 1 then
      {| state := StateOpen;
         failureCount := failureCount cb + 1;
         successCount := 0;
         failureThreshold := failureThreshold cb;
         timeout := timeout cb;
         openTime := now |}
    else
      {| state := StateClosed;
         failureCount := failureCount cb + 1;
         successCount := 0;
         failureThreshold := failureThreshold cb;
         timeout := timeout cb;
         openTime := openTime cb |}.
Proof.
  intros Hst Hfc. unfold record. rewrite incr_small by done.
  rewrite Hst, bool_decide_eq_true_2 by done.
  by destruct (failureThreshold cb <=? failureCount cb + 1).
Qed.

(** Consecutive failures on a closed breaker are counted one by one; the
    breaker stays closed below the threshold and opens when the count
    reaches it. *)
Lemma Calls_failures (fns : list (@protected W)) cb w :
  all_fail clock cb fns w →
  state cb = StateClosed →
  0 ≤ failureCount cb < failureThreshold cb →
  failureThreshold cb ≤ MaxInt →
  (failureCount cb + Z.of_nat (length fns) < failureThreshold cb →
   state (Calls clock cb fns w).1 = StateClosed)
  ∧ (failureCount cb + Z.of_nat (length fns) = failureThreshold cb →
     state (Calls clock cb fns w).1 = StateOpen
     ∧ openTime (Calls clock cb fns w).1 = clock (Calls clock cb fns w).2).
Proof.
  revert cb w. induction fns as [|fn fns IH]; intros cb w Hall Hst Hfc Hmax.
  - simpl. split; [done | lia].
  - destruct Hall as [Hfn Hall]. cbn [Calls].
    rewrite Call_allowed in * by (rewrite Hst; done).
    destruct (fn w) as [w' [e|]]; [|done]. cbn [fst snd] in *.
    rewrite length_cons, Nat2Z.inj_succ.
    rewrite record_closed_failure in * by (unfold MinInt, MaxInt in *; done || lia).
    destruct (Z.leb_spec (failureThreshold cb) (failureCount cb + 1)) as [Hat | Hbelow].
    + (* this failure reaches the threshold *)
      split; [lia|]. intros Hlen.
      destruct fns as [|fn' fns]; [done | simpl in Hlen; lia].
    + (* still below it *)
      specialize (IH _ w' Hall). cbn [state failureCount failureThreshold] in IH.
      destruct IH as [IHclosed IHopen]; [done | lia | done |].
      split; intros Hlen; [apply IHclosed | apply IHopen]; lia.
Qed.

Lemma record_halfopen_failure cb e now :
  state cb = StateHalfOpen →
  state (record cb (Some e) now) = StateOpen
  ∧ openTime (record cb (Some e) now) = now.
Proof.
  intros Hst. unfold record. rewrite Hst.
  rewrite (bool_decide_eq_false_2 (StateHalfOpen = StateClosed)) by done.
  rewrite bool_decide_eq_true_2 by done. done.
Qed.

Lemma record_halfopen_first_success cb now :
  state cb = StateHalfOpen → successCount cb = 0 →
  state (record cb None now) = StateHalfOpen
  ∧ successCount (record cb None now) = 1.
Proof.
  intros Hst Hsc. unfold record. rewrite Hst, Hsc.
  rewrite bool_decide_eq_true_2 by done. done.
Qed.

Lemma record_halfopen_second_success cb now :
  state cb = StateHalfOpen → successCount cb = 1 →
  state (record cb None now) = StateClosed.
Proof.
  intros Hst Hsc. unfold record. rewrite Hst, Hsc.
  rewrite bool_decide_eq_true_2 by done. done.
Qed.

End BreakerFacts.

(** C4. The life cycle of a breaker with threshold [N] (a positive [int]),
    with [clock] the reading [time.Now()] gives in a world:
    - from Closed with no failure counted, consecutive calls whose
      function fails leave the breaker Closed while fewer than [N] were
      made, and the [N]-th opens it, stamped with the time of that failure;
    - while Open, a call at which [time.Since(openTime)] does not exceed
      [timeout] (so in particular any call before the timeout has elapsed)
      returns [ErrCircuitOpen] and leaves the breaker and the world as they
      were: the function is not invoked;
    - while Open, a call at which [time.Since(openTime)] exceeds [timeout]
      is allowed, moves the breaker to HalfOpen with no success counted,
      and invokes the function, whose result is recorded and returned;
    - from HalfOpen with no success counted, one success keeps HalfOpen and
      the second consecutive one closes the breaker;
    - in HalfOpen one failure opens the breaker again, stamped with the
      time of that failure. *)
Theorem breaker_lifecycle {W : Type} (clock : W → Z) (N : Z) :
  (1 ≤ N ≤ MaxInt)%Z →
  (∀ cb (fns : list CircuitBreaker.protected) (w : W),
     CircuitBreaker.state cb = CircuitBreaker.StateClosed →
     CircuitBreaker.failureCount cb = 0%Z →
     CircuitBreaker.failureThreshold cb = N →
     CircuitBreaker.all_fail clock cb fns w →
     ((Z.of_nat (length fns) < N)%Z →
      CircuitBreaker.state (CircuitBreaker.Calls clock cb fns w).1
      = CircuitBreaker.StateClosed)
     ∧ (Z.of_nat (length fns) = N →
        CircuitBreaker.state (CircuitBreaker.Calls clock cb fns w).1
        = CircuitBreaker.StateOpen
        ∧ CircuitBreaker.openTime (CircuitBreaker.Calls clock cb fns w).1
          = clock (CircuitBreaker.Calls clock cb fns w).2))
  ∧ (∀ cb (fn : CircuitBreaker.protected) (w : W),
       CircuitBreaker.failureThreshold cb = N →
       CircuitBreaker.state cb = CircuitBreaker.StateOpen →
       (time_Sub (clock w) (CircuitBreaker.openTime cb) ≤ CircuitBreaker.timeout cb)%Z →
       CircuitBreaker.Call clock cb fn w
       = (cb, w, Some CircuitBreaker.ErrCircuitOpen))
  ∧ (∀ cb (fn : CircuitBreaker.protected) (w : W),
       CircuitBreaker.failureThreshold cb = N →
       CircuitBreaker.state cb = CircuitBreaker.StateOpen →
       (CircuitBreaker.timeout cb < time_Sub (clock w) (CircuitBreaker.openTime cb))%Z →
       (CircuitBreaker.allow cb (clock w)).2 = true
       ∧ CircuitBreaker.state (CircuitBreaker.allow cb (clock w)).1
         = CircuitBreaker.StateHalfOpen
       ∧ CircuitBreaker.successCount (CircuitBreaker.allow cb (clock w)).1 = 0%Z
       ∧ CircuitBreaker.Call clock cb fn w
         = (CircuitBreaker.record (CircuitBreaker.allow cb (clock w)).1
              (fn w).2 (clock (fn w).1),
            (fn w).1, (fn w).2))
  ∧ (∀ cb (f1 f2 : CircuitBreaker.protected) (w : W),
       CircuitBreaker.failureThreshold cb = N →
       CircuitBreaker.state cb = CircuitBreaker.StateHalfOpen →
       CircuitBreaker.successCount cb = 0%Z →
       (f1 w).2 = None → (f2 (f1 w).1).2 = None →
       CircuitBreaker.state (CircuitBreaker.Calls clock cb [f1] w).1
       = CircuitBreaker.StateHalfOpen
       ∧ CircuitBreaker.state (CircuitBreaker.Calls clock cb [f1; f2] w).1
         = CircuitBreaker.StateClosed)
  ∧ (∀ cb (fn : CircuitBreaker.protected) (w : W),
       CircuitBreaker.failureThreshold cb = N →
       CircuitBreaker.state cb = CircuitBreaker.StateHalfOpen →
       (fn w).2 ≠ None →
       CircuitBreaker.state (CircuitBreaker.Call clock cb fn w).1.1
       = CircuitBreaker.StateOpen
       ∧ CircuitBreaker.openTime (CircuitBreaker.Call clock cb fn w).1.1
         = clock (CircuitBreaker.Call clock cb fn w).1.2).
Proof.
  intros HN. repeat apply conj.
  - (* Closed, counting failures *)
    intros cb fns w Hst Hfc Hth Hfns.
    destruct (Calls_failures clock fns cb w Hfns Hst) as [Hclosed Hopen]; [lia.. |].
    split; intros Hlen; [apply Hclosed | apply Hopen]; lia.
  - (* Open, within the timeout *)
    intros cb fn w _ Hst Hle. unfold CircuitBreaker.Call, CircuitBreaker.allow.
    rewrite Hst. destruct (Z.ltb_spec (CircuitBreaker.timeout cb)
      (time_Sub (clock w) (CircuitBreaker.openTime cb))); [lia|done].
  - (* Open, past the timeout *)
    intros cb fn w _ Hst Hlt. unfold CircuitBreaker.Call, CircuitBreaker.allow.
    rewrite Hst. destruct (Z.ltb_spec (CircuitBreaker.timeout cb)
      (time_Sub (clock w) (CircuitBreaker.openTime cb))); [|lia].
    simpl. by destruct (fn w).
  - (* HalfOpen, two successes *)
    intros cb f1 f2 w _ Hst Hsc Hf1 Hf2. cbn [CircuitBreaker.Calls].
    rewrite Call_allowed by (rewrite Hst; done).
    rewrite Hf1. cbn [fst].
    destruct (record_halfopen_first_success cb (clock (f1 w).1) Hst Hsc) as [Hst1 Hsc1].
    split; [done|].
    rewrite Call_allowed by (rewrite Hst1; done). rewrite Hf2. cbn [fst].
    by apply record_halfopen_second_success.
  - (* HalfOpen, one failure *)
    intros cb fn w _ Hst Hfn. rewrite Call_allowed by (rewrite Hst; done).
    destruct (fn w) as [w' [e|]]; [|done]. cbn [fst snd].
    by apply record_halfopen_failure.
Qed.

Lemma breaker_lifecycle_witness :
  (1 ≤ 3 ≤ MaxInt)%Z
  ∧ CircuitBreaker.state
      (CircuitBreaker.Calls CircuitBreaker.probe_clock
         (CircuitBreaker.NewCircuitBreaker 3 (60 * Second))
         [CircuitBreaker.down; CircuitBreaker.down] (0%Z, 0)).1
    = CircuitBreaker.StateClosed
  ∧ CircuitBreaker.state CircuitBreaker.tripped.1 = CircuitBreaker.StateOpen
  ∧ CircuitBreaker.Call CircuitBreaker.probe_clock CircuitBreaker.tripped.1
      CircuitBreaker.up (CircuitBreaker.later (10 * Second) CircuitBreaker.tripped.2)
    = (CircuitBreaker.tripped.1,
       CircuitBreaker.later (10 * Second) CircuitBreaker.tripped.2,
       Some CircuitBreaker.ErrCircuitOpen)
  ∧ CircuitBreaker.state CircuitBreaker.probing = CircuitBreaker.StateHalfOpen
  ∧ CircuitBreaker.state
      (CircuitBreaker.Calls CircuitBreaker.probe_clock CircuitBreaker.probing
         [CircuitBreaker.up; CircuitBreaker.up]
         (CircuitBreaker.later (61 * Second) CircuitBreaker.tripped.2)).1
    = CircuitBreaker.StateClosed
  ∧ CircuitBreaker.state
      (CircuitBreaker.Call CircuitBreaker.probe_clock CircuitBreaker.probing
         CircuitBreaker.down
         (CircuitBreaker.later (61 * Second) CircuitBreaker.tripped.2)).1.1
    = CircuitBreaker.StateOpen.
Proof.
  assert (HN : (1 ≤ 3 ≤ MaxInt)%Z) by (by split; vm_compute).
  destruct (breaker_lifecycle CircuitBreaker.probe_clock 3 HN)
    as (Hclosed & Hopen & Hprobe & Hhalf & Hreopen).
  split; [exact HN|].
  split.
  { apply (Hclosed _ [CircuitBreaker.down; CircuitBreaker.down]);
      [reflexivity | reflexivity | reflexivity | by repeat split | simpl; lia]. }
  split.
  { apply (Hclosed (CircuitBreaker.NewCircuitBreaker 3 (60 * Second))
             [CircuitBreaker.down; CircuitBreaker.down; CircuitBreaker.down] (0%Z, 0));
      [reflexivity | reflexivity | reflexivity | by repeat split | reflexivity]. }
  split.
  { apply Hopen; [reflexivity | reflexivity | by vm_compute]. }
  destruct (Hprobe CircuitBreaker.tripped.1 CircuitBreaker.up
              (CircuitBreaker.later (61 * Second) CircuitBreaker.tripped.2))
    as (_ & Hst & Hsc & _); [reflexivity | reflexivity | by vm_compute |].
  split; [exact Hst|].
  split.
  { apply (Hhalf CircuitBreaker.probing CircuitBreaker.up CircuitBreaker.up);
      [reflexivity | exact Hst | exact Hsc | reflexivity | reflexivity]. }
  apply (Hreopen CircuitBreaker.probing CircuitBreaker.down);
    [reflexivity | exact Hst | discriminate].
Defined.

(** C7, as the code has it. A step of [allow] or [record] that changes the
    state is one of four transitions, and each resets one counter, not
    both:
    - Open to HalfOpen (in [allow]) sets [successCount] to 0 and leaves
      [failureCount] as it was;
    - Closed to Open and HalfOpen to Open (in [record], on a failure) set
      [successCount] to 0 and leave [failureCount] incremented;
    - HalfOpen to Closed (in [record], on a success) sets [failureCount] to
      0 and leaves [successCount] incremented. *)
Theorem breaker_transition_counters (cb : CircuitBreaker.CircuitBreaker) :
  (∀ now,
     CircuitBreaker.state (CircuitBreaker.allow cb now).1 ≠ CircuitBreaker.state cb →
     CircuitBreaker.state cb = CircuitBreaker.StateOpen
     ∧ CircuitBreaker.state (CircuitBreaker.allow cb now).1 = CircuitBreaker.StateHalfOpen
     ∧ CircuitBreaker.successCount (CircuitBreaker.allow cb now).1 = 0%Z
     ∧ CircuitBreaker.failureCount (CircuitBreaker.allow cb now).1
       = CircuitBreaker.failureCount cb)
  ∧ (∀ err now,
       CircuitBreaker.state (CircuitBreaker.record cb err now) ≠ CircuitBreaker.state cb →
       (is_Some err
        ∧ (CircuitBreaker.state cb = CircuitBreaker.StateClosed
           ∨ CircuitBreaker.state cb = CircuitBreaker.StateHalfOpen)
        ∧ CircuitBreaker.state (CircuitBreaker.record cb err now) = CircuitBreaker.StateOpen
        ∧ CircuitBreaker.successCount (CircuitBreaker.record cb err now) = 0%Z
        ∧ CircuitBreaker.failureCount (CircuitBreaker.record cb err now)
          = incr (CircuitBreaker.failureCount cb))
       ∨ (err = None
          ∧ CircuitBreaker.state cb = CircuitBreaker.StateHalfOpen
          ∧ CircuitBreaker.state (CircuitBreaker.record cb err now)
            = CircuitBreaker.StateClosed
          ∧ CircuitBreaker.failureCount (CircuitBreaker.record cb err now) = 0%Z
          ∧ CircuitBreaker.successCount (CircuitBreaker.record cb err now)
            = incr (CircuitBreaker.successCount cb))).
Proof.
  split.
  - intros now. unfold CircuitBreaker.allow.
    destruct (CircuitBreaker.state cb) eqn:Hst; simpl; try done.
    destruct (_ <? _)%Z; simpl; [done|]. by rewrite Hst.
  - intros [e|] now; unfold CircuitBreaker.record.
    + destruct (CircuitBreaker.state cb) eqn:Hst; simpl; [|done|].
      * destruct (_ <=? _)%Z; simpl; [|done].
        intros _. left. eauto 10.
      * intros _. left. eauto 10.
    + destruct (CircuitBreaker.state cb) eqn:Hst; simpl; try done.
      destruct (_ <=? _)%Z; simpl; [|done].
      intros _. right. done.
Qed.

Lemma breaker_transition_counters_witness :
  CircuitBreaker.state
    (CircuitBreaker.record (CircuitBreaker.NewCircuitBreaker 1 (60 * Second))
       (Some (errors_New "connection refused")) 5)
  ≠ CircuitBreaker.state (CircuitBreaker.NewCircuitBreaker 1 (60 * Second))
  ∧ CircuitBreaker.successCount
      (CircuitBreaker.record (CircuitBreaker.NewCircuitBreaker 1 (60 * Second))
         (Some (errors_New "connection refused")) 5) = 0%Z
  ∧ CircuitBreaker.failureCount
      (CircuitBreaker.record (CircuitBreaker.NewCircuitBreaker 1 (60 * Second))
         (Some (errors_New "connection refused")) 5) = incr 0.
Proof.
  assert (Hchange :
    CircuitBreaker.state
      (CircuitBreaker.record (CircuitBreaker.NewCircuitBreaker 1 (60 * Second))
         (Some (errors_New "connection refused")) 5)
    ≠ CircuitBreaker.state (CircuitBreaker.NewCircuitBreaker 1 (60 * Second)))
    by (vm_compute; discriminate).
  split; [exact Hchange|].
  destruct (breaker_transition_counters
              (CircuitBreaker.NewCircuitBreaker 1 (60 * Second))) as [_ Hrecord].
  destruct (Hrecord (Some (errors_New "connection refused")) 5%Z Hchange)
    as [(_ & _ & _ & Hsc & Hfc) | (Hnone & _)]; [|discriminate Hnone].
  split; [exact Hsc | exact Hfc].
Defined.

(** C7, as the specification words it, fails: the failure that opens a
    breaker of threshold 1 leaves [failureCount] at 1, and the second
    success that closes a probing breaker leaves [successCount] at 2. *)
Lemma breaker_counters_not_both_reset :
  let opened :=
    CircuitBreaker.record (CircuitBreaker.NewCircuitBreaker 1 (60 * Second))
      (Some (errors_New "connection refused")) 5 in
  let closed :=
    (CircuitBreaker.Calls CircuitBreaker.probe_clock CircuitBreaker.probing
       [CircuitBreaker.up; CircuitBreaker.up]
       (CircuitBreaker.later (61 * Second) CircuitBreaker.tripped.2)).1 in
  (CircuitBreaker.state (CircuitBreaker.NewCircuitBreaker 1 (60 * Second))
     = CircuitBreaker.StateClosed
   ∧ CircuitBreaker.state opened = CircuitBreaker.StateOpen
   ∧ ¬ (CircuitBreaker.failureCount opened = 0%Z
        ∧ CircuitBreaker.successCount opened = 0%Z))
  ∧ (CircuitBreaker.state CircuitBreaker.probing = CircuitBreaker.StateHalfOpen
     ∧ CircuitBreaker.state closed = CircuitBreaker.StateClosed
     ∧ ¬ (CircuitBreaker.failureCount closed = 0%Z
          ∧ CircuitBreaker.successCount closed = 0%Z)).
Proof.
  vm_compute. repeat split; try reflexivity; intros [? ?]; discriminate.
Qed.

(** ** Token bucket *)

Section TokenBucketFacts.

Import TokenBucket.
Local Open Scope Z_scope.

Implicit Types (σ : Redis.server) (tb : TokenBucket) (e : Redis.entry).

Lemma live_put σ key e :
  Redis.expired (Redis.time σ) e = false →
  Redis.live (Redis.put σ key e) key = Some e.
Proof.
  intros He. unfold Redis.live, Redis.put. simpl.
  by rewrite lookup_insert_eq, He.
Qed.

Lemma live_not_expired σ key e :
  Redis.live σ key = Some e → Redis.expired (Redis.time σ) e = false.
Proof.
  unfold Redis.live. destruct (Redis.db σ !! key) as [e'|]; [|done].
  destruct (Redis.expired (Redis.time σ) e') eqn:He; [done|]. by intros [= <-].
Qed.

(** Time passing only makes keys expire. *)
Lemma live_tick σ key d :
  0 ≤ d →
  Redis.live (Redis.tick d σ) key = Redis.live σ key
  ∨ Redis.live (Redis.tick d σ) key = None.
Proof.
  intros Hd. unfold Redis.live, Redis.tick. simpl.
  destruct (Redis.db σ !! key) as [e|]; [|by left].
  unfold Redis.expired. destruct (Redis.expireAt e) as [t|]; [|by left].
  destruct (Z.leb_spec t (Redis.time σ)), (Z.leb_spec t (Redis.time σ + d));
    (by left) || (by right) || lia.
Qed.

(** What HMSET leaves under the key it writes. *)
Lemma HMSET_stored σ key v1 v2 :
  (∃ err, Redis.HMSET σ key "tokens" v1 "last_time" v2 = inl err
          ∧ Redis.HMGET σ key "tokens" "last_time" = inl err)
  ∨ (∃ σ' h t,
       Redis.HMSET σ key "tokens" v1 "last_time" v2 = inr σ'
       ∧ σ' = Redis.put σ key {| Redis.val := Redis.VHash h; Redis.expireAt := t |}
       ∧ Redis.expired (Redis.time σ) {| Redis.val := Redis.VHash h; Redis.expireAt := t |}
         = false
       ∧ h !! "tokens" = Some v1 ∧ h !! "last_time" = Some v2).
Proof.
  unfold Redis.HMSET, Redis.HMGET.
  destruct (Redis.live σ key) as [[[s|h] t]|] eqn:Hlive.
  - left. by eexists.
  - right. eexists _, _, _. split; [done|]. split; [done|].
    split; [exact (live_not_expired _ _ _ Hlive)|].
    split; [by rewrite lookup_insert_ne, lookup_insert_eq | by rewrite lookup_insert_eq].
  - right. eexists _, _, _. split; [done|]. split; [done|].
    split; [done|].
    split; [by rewrite lookup_insert_ne, lookup_insert_eq | by rewrite lookup_insert_eq].
Qed.

Lemma stored_put tb σ h t :
  Redis.expired (Redis.time σ) {| Redis.val := Redis.VHash h; Redis.expireAt := t |} = false →
  stored tb (Redis.put σ (key tb) {| Redis.val := Redis.VHash h; Redis.expireAt := t |})
  = (h !! "tokens", h !! "last_time").
Proof.
  intros He. unfold stored, Redis.HMGET. by rewrite live_put.
Qed.

Lemma stored_EXPIRE tb σ h t seconds :
  0 < seconds →
  Redis.expired (Redis.time σ) {| Redis.val := Redis.VHash h; Redis.expireAt := t |} = false →
  stored tb (Redis.EXPIRE
               (Redis.put σ (key tb) {| Redis.val := Redis.VHash h; Redis.expireAt := t |})
               (key tb) seconds)
  = (h !! "tokens", h !! "last_time").
Proof.
  intros Hs He. unfold Redis.EXPIRE. rewrite live_put by done.
  cbn [Redis.val]. apply stored_put.
  unfold Redis.expired, Redis.put. simpl.
  destruct (Z.leb_spec (Redis.time σ + seconds * Second) (Redis.time σ)); [|done].
  unfold Second, Nanosecond in *. lia.
Qed.

(** One call of [Allow] on a server whose key, if there, holds a hash. *)
Lemma Allow_stored tb now σ bucket :
  Redis.online σ = true →
  Redis.HMGET σ (key tb) "tokens" "last_time" = inr bucket →
  let new_tokens :=
    Z.min (capacity tb)
      (default (capacity tb) bucket.1 + (now - default now bucket.2) * rate tb) in
  (1 ≤ new_tokens →
   (Allow tb now σ).2 = (true, None)
   ∧ stored tb (Allow tb now σ).1 = (Some (new_tokens - 1), Some now))
  ∧ (new_tokens < 1 →
     (Allow tb now σ).2 = (false, None)
     ∧ stored tb (Allow tb now σ).1 = (Some new_tokens, Some now)).
Proof.
  intros Hon Hget new_tokens. unfold Allow, Eval, script. rewrite Hon, Hget.
  fold new_tokens. split; intros Hnt.
  - destruct (Z.leb_spec 1 new_tokens); [|lia].
    destruct (HMSET_stored σ (key tb) (new_tokens - 1) now)
      as [(err & _ & Herr) | (σ' & h & t & -> & -> & He & Ht & Hl)];
      [congruence|].
    cbn [fst snd]. split; [done|].
    rewrite stored_EXPIRE by done. by rewrite Ht, Hl.
  - destruct (Z.leb_spec 1 new_tokens); [lia|].
    destruct (HMSET_stored σ (key tb) new_tokens now)
      as [(err & _ & Herr) | (σ' & h & t & -> & -> & He & Ht & Hl)];
      [congruence|].
    cbn [fst snd]. split; [done|].
    rewrite stored_put by done. by rewrite Ht, Hl.
Qed.

(** A server whose key holds a string: the script fails and nothing
    changes. *)
Lemma Allow_wrongtype tb now σ err :
  Redis.HMGET σ (key tb) "tokens" "last_time" = inl err →
  (Allow tb now σ).1 = σ.
Proof.
  intros Hget. unfold Allow, Eval, script. rewrite Hget. by destruct (Redis.online σ).
Qed.

(** Without a connection the call fails and nothing changes. *)
Lemma Allow_offline tb now σ :
  Redis.online σ = false →
  Allow tb now σ = (σ, (false, Some Redis.ErrOffline)).
Proof. intros Hoff. unfold Allow, Eval. by rewrite Hoff. Qed.

Lemma stored_HMGET tb σ :
  (∃ err, Redis.HMGET σ (key tb) "tokens" "last_time" = inl err
          ∧ stored tb σ = (None, None))
  ∨ Redis.HMGET σ (key tb) "tokens" "last_time" = inr (stored tb σ).
Proof.
  unfold stored. destruct (Redis.HMGET σ (key tb) "tokens" "last_time") as [err|b].
  - left. by exists err.
  - by right.
Qed.

End TokenBucketFacts.








(** ** Idempotency middleware *)

Section MiddlewareFacts.

Import Middleware.
Local Open Scope Z_scope.

Context {A : Type} (operation : A → A * Z).
Implicit Types (w : world A) (req : Request) (σ : Redis.server).

Lemma redisKey_lockKey key1 key2 : redisKey key1 ≠ lockKey key2.
Proof. unfold redisKey, lockKey. simpl. discriminate. Qed.

Lemma IdempotentMiddleware_guarded req key :
  guarded req key →
  IdempotentMiddleware req
  = cache_Exists (redisKey key) (λ '(exists_, _),
      if 0 <? exists_ then
        c_JSON StatusConflict "请求已处理，请勿重复提交" (c_Abort Return)
      else
        cache_Lock (lockKey key) (30 * Second) (λ '(locked, err),
          if bool_decide (err ≠ None) || negb locked then
            c_JSON StatusTooManyRequests "请求处理中，请稍后" (c_Abort Return)
          else
            defer (cache_Unlock (lockKey key) Return)
              (c_Next
                 (c_Writer_Status (λ status,
                    if (200 <=? status) && (status <? 300) then
                      cache_Set (redisKey key) "1" (24 * Hour) (λ _, Return)
                    else Return))))).
Proof.
  intros (Hget & Hhead & Hkey & Hne). unfold IdempotentMiddleware.
  rewrite (bool_decide_eq_false_2 _ Hget), (bool_decide_eq_false_2 _ Hhead), Hkey.
  by rewrite (bool_decide_eq_false_2 _ Hne).
Qed.

(** The request finds the completion record: it is answered 409 and
    nothing else happens. *)
Lemma serve_completed id req key w :
  guarded req key →
  Redis.online (redis w) = true →
  is_Some (Redis.live (redis w) (redisKey key)) →
  serve operation id req w
  = ({| status := StatusConflict;
        json := [(StatusConflict, "请求已处理，请勿重复提交")];
        aborted := true; pending := true |},
     emit id (EvExists (redisKey key) 1) (redis w) w).
Proof.
  intros Hreq Hon [e He]. unfold serve.
  rewrite (IdempotentMiddleware_guarded req key Hreq).
  cbn [exec]. unfold do_Exists, Redis.EXISTS. rewrite Hon, He. done.
Qed.

(** The request finds no completion record and takes the lock: the
    operation runs, the record is written if it answered 2xx, and the
    lock is released last. *)
Lemma serve_first id req key w :
  guarded req key →
  Redis.online (redis w) = true →
  Redis.live (redis w) (redisKey key) = None →
  Redis.live (redis w) (lockKey key) = None →
  let s := (operation (app w)).2 in
  let locked :=
    Redis.put (redis w) (lockKey key)
      {| Redis.val := Redis.VString "locked";
         Redis.expireAt := Redis.deadline (redis w) (30 * Second) |} in
  serve operation id req w
  = ({| status := s; json := []; aborted := false; pending := false |},
     if (200 <=? s) && (s <? 300) then
       {| redis := Redis.DEL (Redis.SET locked (redisKey key) "1" (24 * Hour)) (lockKey key);
          app := (operation (app w)).1;
          trace := trace w ++ [(id, EvExists (redisKey key) 0);
                               (id, EvLock (lockKey key) true);
                               (id, EvOperation s);
                               (id, EvSet (redisKey key) "1" (24 * Hour));
                               (id, EvUnlock (lockKey key))] |}
     else
       {| redis := Redis.DEL locked (lockKey key);
          app := (operation (app w)).1;
          trace := trace w ++ [(id, EvExists (redisKey key) 0);
                               (id, EvLock (lockKey key) true);
                               (id, EvOperation s);
                               (id, EvUnlock (lockKey key))] |}).
Proof.
  intros Hreq Hon Hrec Hlock s locked. unfold serve.
  rewrite (IdempotentMiddleware_guarded req key Hreq).
  cbn [exec]. unfold do_Exists, Redis.EXISTS. rewrite Hon, Hrec.
  cbn [exec Z.ltb Z.compare]. unfold do_Lock, Redis.SETNX, emit. cbn [redis].
  rewrite Hon, Hlock. cbn [exec defer bool_decide negb orb].
  rewrite bool_decide_eq_false_2 by (intros H; by apply H).
  cbn [exec defer negb orb]. unfold run_pending, fresh. cbn [pending aborted negb andb app trace].
  subst s. destruct (operation (app w)) as [a s]. cbn [fst snd exec status].
  destruct ((200 <=? s) && (s <? 300)); cbn [defer exec].
  - unfold do_Set, do_Unlock, emit.
    cbn [redis app trace exec run_pending pending andb Redis.online Redis.put Redis.SET].
    rewrite Hon.
    cbn [redis app trace exec run_pending pending andb Redis.online Redis.put Redis.SET].
    rewrite Hon.
    cbn [redis app trace exec run_pending pending andb].
    by rewrite <- !app_assoc.
  - unfold do_Unlock, emit.
    cbn [redis app trace exec run_pending pending andb Redis.online Redis.put].
    rewrite Hon.
    cbn [redis app trace exec run_pending pending andb].
    by rewrite <- !app_assoc.
Qed.

(** Whatever it answers, the operation of such a request runs. *)
Lemma serve_first_runs id req key w :
  guarded req key →
  Redis.online (redis w) = true →
  Redis.live (redis w) (redisKey key) = None →
  Redis.live (redis w) (lockKey key) = None →
  app (serve operation id req w).2 = (operation (app w)).1
  ∧ ∃ rest,
      trace (serve operation id req w).2
      = trace w ++ [(id, EvExists (redisKey key) 0);
                    (id, EvLock (lockKey key) true);
                    (id, EvOperation (operation (app w)).2)] ++ rest.
Proof.
  intros Hreq Hon Hrec Hlock.
  rewrite (serve_first id req key w Hreq Hon Hrec Hlock). cbn [snd].
  destruct (_ && _); cbn [app trace]; (split; [done|]).
  - by exists [(id, EvSet (redisKey key) "1" (24 * Hour)); (id, EvUnlock (lockKey key))].
  - by exists [(id, EvUnlock (lockKey key))].
Qed.

(** After a first call that answered 2xx the completion record is there
    for the next 24 hours. *)
Lemma record_kept σ key e d :
  0 ≤ d < 24 * Hour →
  is_Some (Redis.live
             (Redis.tick d
                (Redis.DEL (Redis.SET (Redis.put σ (lockKey key) e)
                              (redisKey key) "1" (24 * Hour))
                   (lockKey key)))
             (redisKey key)).
Proof.
  intros Hd. unfold Redis.live, Redis.tick, Redis.DEL, Redis.SET, Redis.put.
  cbn [Redis.db Redis.time].
  rewrite lookup_delete_ne by (intros H; by apply (redisKey_lockKey key key)).
  rewrite lookup_insert_eq. unfold Redis.expired, Redis.deadline.
  cbn [Redis.expireAt Redis.time].
  change (24 * Hour =? 0) with false. cbn iota.
  destruct (Z.leb_spec (Redis.time σ + 24 * Hour) (Redis.time σ + d)); [lia|].
  by eexists.
Qed.

(** After a first call that did not answer 2xx neither the record nor
    the lock is there, however long one waits. *)
Lemma nothing_kept σ key e d :
  0 ≤ d →
  Redis.live σ (redisKey key) = None →
  Redis.live (Redis.tick d (Redis.DEL (Redis.put σ (lockKey key) e) (lockKey key)))
    (redisKey key) = None
  ∧ Redis.live (Redis.tick d (Redis.DEL (Redis.put σ (lockKey key) e) (lockKey key)))
      (lockKey key) = None.
Proof.
  intros Hd Hrec. split.
  - destruct (live_tick (Redis.DEL (Redis.put σ (lockKey key) e) (lockKey key))
                (redisKey key) d Hd) as [-> | ->]; [|done].
    unfold Redis.live, Redis.DEL, Redis.put in *. cbn [Redis.db Redis.time].
    rewrite lookup_delete_ne by (intros H; by apply (redisKey_lockKey key key)).
    rewrite lookup_insert_ne by (intros H; by apply (redisKey_lockKey key key)).
    exact Hrec.
  - unfold Redis.live, Redis.tick, Redis.DEL, Redis.put. cbn [Redis.db].
    by rewrite lookup_delete_eq.
Qed.

(** A request that moves alone, one call at a time, ends where [exec]
    ends. *)
Lemma schedule_alone (h : handler) rid c w :
  ∃ n,
    schedule operation (replicate n (Step 0%nat))
      [{| id := rid; ctx := c; code := h; finished := false |}] w
    = ([{| id := rid; ctx := (exec operation rid h c w).1; code := Return;
           finished := true |}],
       (exec operation rid h c w).2).
Proof.
  revert c w.
  induction h as [ | k IH | code message k IH | k IH | k IH | key k IH
                 | key expiration k IH | key k IH | key value expiration k IH ];
    intros c w.
  - exists 1%nat. cbn [replicate schedule lookup list_lookup]. unfold step.
    cbn [finished code id ctx exec]. by destruct (run_pending operation rid c w).
  - destruct (run_pending operation rid c w) as [c' w'] eqn:Hrun.
    destruct (IH c' w') as [n Hn]. exists (S n).
    cbn [replicate schedule lookup list_lookup]. unfold step.
    cbn [finished code id ctx exec]. rewrite Hrun. exact Hn.
  - destruct (IH (do_JSON code message c) w) as [n Hn]. exists (S n). exact Hn.
  - destruct (IH (do_Abort c) w) as [n Hn]. exists (S n). exact Hn.
  - destruct (IH (status c) c w) as [n Hn]. exists (S n). exact Hn.
  - destruct (do_Exists rid key w) as [w' r] eqn:Hdo.
    destruct (IH r c w') as [n Hn]. exists (S n).
    cbn [replicate schedule lookup list_lookup]. unfold step.
    cbn [finished code id ctx exec]. rewrite Hdo. exact Hn.
  - destruct (do_Lock rid key expiration w) as [w' r] eqn:Hdo.
    destruct (IH r c w') as [n Hn]. exists (S n).
    cbn [replicate schedule lookup list_lookup]. unfold step.
    cbn [finished code id ctx exec]. rewrite Hdo. exact Hn.
  - destruct (IH c (do_Unlock rid key w)) as [n Hn]. exists (S n). exact Hn.
  - destruct (do_Set rid key value expiration w) as [w' r] eqn:Hdo.
    destruct (IH r c w') as [n Hn]. exists (S n).
    cbn [replicate schedule lookup list_lookup]. unfold step.
    cbn [finished code id ctx exec]. rewrite Hdo. exact Hn.
Qed.

End MiddlewareFacts.

(** C10. A request that is neither GET nor HEAD and carries no
    idempotency key is answered 400 and aborted: the handler makes no call
    on Redis, and serving it leaves the world (Redis, the application
    state, the record of calls and operation runs) exactly as it was. *)
Theorem idempotent_missing_key {A : Type} (operation : A → A * Z) (id : nat)
    (req : Middleware.Request) (w : Middleware.world A) :
  Middleware.Method req ≠ "GET" →
  Middleware.Method req ≠ "HEAD" →
  Middleware.GetHeader req "X-Idempotent-Key" = "" →
  Middleware.IdempotentMiddleware req
  = Middleware.c_JSON Middleware.StatusBadRequest "缺少幂等性令牌"
      (Middleware.c_Abort Middleware.Return)
  ∧ Middleware.serve operation id req w
    = ({| Middleware.status := 400;
          Middleware.json := [(400%Z, "缺少幂等性令牌")];
          Middleware.aborted := true;
          Middleware.pending := true |}, w).
Proof.
  intros Hget Hhead Hkey.
  assert (Hcode : Middleware.IdempotentMiddleware req
                  = Middleware.c_JSON Middleware.StatusBadRequest "缺少幂等性令牌"
                      (Middleware.c_Abort Middleware.Return)).
  { unfold Middleware.IdempotentMiddleware.
    by rewrite (bool_decide_eq_false_2 _ Hget), (bool_decide_eq_false_2 _ Hhead), Hkey. }
  split; [exact Hcode|]. unfold Middleware.serve. rewrite Hcode. reflexivity.
Qed.

Lemma idempotent_missing_key_witness :
  Middleware.Method (Middleware.post "") ≠ "GET"
  ∧ Middleware.Method (Middleware.post "") ≠ "HEAD"
  ∧ Middleware.GetHeader (Middleware.post "") "X-Idempotent-Key" = ""
  ∧ Middleware.serve Middleware.submit 7 (Middleware.post "") Middleware.idle
    = ({| Middleware.status := 400;
          Middleware.json := [(400%Z, "缺少幂等性令牌")];
          Middleware.aborted := true;
          Middleware.pending := true |}, Middleware.idle).
Proof.
  assert (Hget : Middleware.Method (Middleware.post "") ≠ "GET") by discriminate.
  assert (Hhead : Middleware.Method (Middleware.post "") ≠ "HEAD") by discriminate.
  assert (Hkey : Middleware.GetHeader (Middleware.post "") "X-Idempotent-Key" = "")
    by reflexivity.
  split; [exact Hget|]. split; [exact Hhead|]. split; [exact Hkey|].
  exact (proj2 (idempotent_missing_key Middleware.submit 7 (Middleware.post "")
                  Middleware.idle Hget Hhead Hkey)).
Defined.



(** C6 on the code: the completion record is checked once, before the
    lock is taken, and not again. With the same transfer submitted twice,
    request 0 makes its check, request 1 is served to its end (record
    written, lock released), and request 0 then takes the lock; at that
    point the record is there, and the next call request 0 makes is the
    operation, which so runs a second time. *)
Theorem idempotent_second_run_after_lock :
  let at_lock := Middleware.schedule Middleware.submit Middleware.overtaken
                   Middleware.duplicates Middleware.idle in
  let next := Middleware.schedule Middleware.submit [Middleware.Step 0]
                at_lock.1 at_lock.2 in
  Middleware.trace at_lock.2
  = [(0, Middleware.EvExists (Middleware.redisKey "transfer-42") 0);
     (1, Middleware.EvExists (Middleware.redisKey "transfer-42") 0);
     (1, Middleware.EvLock (Middleware.lockKey "transfer-42") true);
     (1, Middleware.EvOperation 200);
     (1, Middleware.EvSet (Middleware.redisKey "transfer-42") "1" (24 * Hour));
     (1, Middleware.EvUnlock (Middleware.lockKey "transfer-42"));
     (0, Middleware.EvLock (Middleware.lockKey "transfer-42") true)]
  ∧ is_Some (Redis.live (Middleware.redis at_lock.2)
               (Middleware.redisKey "transfer-42"))
  ∧ Middleware.trace next.2
    = Middleware.trace at_lock.2 ++ [(0, Middleware.EvOperation 200)]
  ∧ Middleware.app next.2 = 2
  ∧ Middleware.operations next.2 = 2.
Proof.
  cbv zeta. split; [reflexivity|]. split; [vm_compute; by eexists|].
  split; [reflexivity|]. split; reflexivity.
Qed.


(* ===================================================================== *)
(** * Part III: further properties of the code                            *)
(* ===================================================================== *)

(** ** Token bucket: runs of calls *)

Section TokenBucketRuns.

Import TokenBucket.
Local Open Scope Z_scope.

Implicit Types (σ : Redis.server) (tb : TokenBucket).

Lemma tick_0 σ : Redis.tick 0 σ = σ.
Proof. destruct σ. unfold Redis.tick. simpl. by rewrite Z.add_0_r. Qed.

(** A key that is still there after some time is the key as it was. *)
Lemma live_tick_kept σ key d :
  0 ≤ d →
  is_Some (Redis.live (Redis.tick d σ) key) →
  Redis.live (Redis.tick d σ) key = Redis.live σ key.
Proof.
  intros Hd [e He]. destruct (live_tick σ key d Hd) as [Heq | Hnone]; [done|].
  congruence.
Qed.

Lemma stored_tick_kept tb σ d :
  0 ≤ d →
  is_Some (Redis.live (Redis.tick d σ) (key tb)) →
  stored tb (Redis.tick d σ) = stored tb σ.
Proof.
  intros Hd Hkept. unfold stored, Redis.HMGET. by rewrite live_tick_kept.
Qed.

Lemma stored_Some_HMGET tb σ t l :
  stored tb σ = (Some t, Some l) →
  Redis.HMGET σ (key tb) "tokens" "last_time" = inr (Some t, Some l).
Proof.
  intros Hst. destruct (stored_HMGET tb σ) as [(err & _ & Hnone) | Hget]; congruence.
Qed.

(** One call on a stored bucket, whether or not it reaches the server:
    the tokens stay at or above zero, the refill time never goes back, and
    what is let through is paid for by the tokens or by the refill. *)
Lemma Allow_accounting tb now σ t l :
  0 ≤ capacity tb →
  0 ≤ rate tb →
  stored tb σ = (Some t, Some l) →
  0 ≤ t → l ≤ now →
  ∃ t' l',
    stored tb (Allow tb now σ).1 = (Some t', Some l')
    ∧ 0 ≤ t' ∧ l ≤ l' ≤ now
    ∧ (if (Allow tb now σ).2.1 then 1 else 0) + t' ≤ t + rate tb * (l' - l).
Proof.
  intros Hcap Hrate Hst Ht Hl.
  assert (Hrefill : 0 ≤ (now - l) * rate tb) by nia.
  destruct (Redis.online σ) eqn:Hon.
  - pose proof (Allow_stored tb now σ _ Hon (stored_Some_HMGET tb σ t l Hst))
      as [Hallowed Hdenied].
    cbn [fst snd default id] in *. set (nt := Z.min _ _) in *.
    assert (Hnt : nt ≤ t + (now - l) * rate tb) by (subst nt; lia).
    assert (Hnt0 : 0 ≤ nt) by (subst nt; lia).
    destruct (Z.le_gt_cases 1 nt) as [H1 | H1].
    + destruct (Hallowed H1) as [-> ->]. exists (nt - 1), now. cbn [fst]. 
      repeat split; lia.
    + destruct (Hdenied H1) as [-> ->]. exists nt, now. cbn [fst].
      repeat split; lia.
  - rewrite (Allow_offline tb now σ Hon). cbn [fst snd]. exists t, l.
    repeat split; try done; lia.
Qed.

Lemma ascending_weaken prev prev' nows :
  prev' ≤ prev → ascending prev nows → ascending prev' nows.
Proof. destruct nows as [|now rest]; [done|]. simpl. intros ? [? ?]. split; [lia|done]. Qed.

Lemma last_cons_default (ns : list Z) x a b :
  List.last (x :: ns) a = List.last (x :: ns) b.
Proof. revert x. induction ns as [|y ns IH]; intros x; [done | exact (IH y)]. Qed.

Lemma last_cons_le (ns : list Z) now l l1 :
  l1 ≤ now → List.last ns l1 ≤ List.last (now :: ns) l.
Proof.
  intros Hle. destruct ns as [|y ns]; [simpl; lia|].
  change (List.last (now :: y :: ns) l) with (List.last (y :: ns) l).
  rewrite (last_cons_default ns y l1 l). lia.
Qed.

(** A run on a stored bucket whose key is kept and whose clock readings
    never go back: what is let through is paid for by the tokens at the
    start and the refill since. *)
Lemma run_accounting tb calls σ t l :
  0 ≤ capacity tb →
  0 ≤ rate tb →
  stored tb σ = (Some t, Some l) →
  0 ≤ t →
  ascending l (snd <$> calls) →
  kept tb calls σ →
  ∃ t' l',
    stored tb (after tb calls σ) = (Some t', Some l')
    ∧ 0 ≤ t' ∧ l ≤ l' ≤ List.last (snd <$> calls) l
    ∧ let_through (answers tb calls σ) + t' ≤ t + rate tb * (l' - l).
Proof.
  intros Hcap Hrate. revert σ t l.
  induction calls as [|[d now] rest IH]; intros σ t l Hst Ht Hasc Hkept.
  - exists t, l. simpl. repeat split; try done; lia.
  - destruct Hasc as [Hl Hasc]. destruct Hkept as (Hd & Hlive & Hkept).
    rewrite <- (stored_tick_kept tb σ d Hd Hlive) in Hst.
    destruct (Allow_accounting tb now _ t l Hcap Hrate Hst Ht Hl)
      as (t1 & l1 & Hst1 & Ht1 & Hl1 & Hpaid).
    destruct (IH _ t1 l1 Hst1 Ht1 (ascending_weaken now l1 _ ltac:(lia) Hasc) Hkept)
      as (t' & l' & Hst' & Ht' & Hl' & Hpaid').
    exists t', l'. cbn [after answers let_through]. split; [exact Hst'|].
    split; [done|]. split.
    + split; [lia|]. rewrite fmap_cons. cbn [snd].
      pose proof (last_cons_le (snd <$> rest) now l l1 ltac:(lia)). lia.
    + nia.
Qed.

Lemma Allow_online tb now σ : Redis.online (Allow tb now σ).1 = Redis.online σ.
Proof.
  unfold Allow, Eval. destruct (Redis.online σ) eqn:Hon; [|done].
  unfold script. destruct (Redis.HMGET _ _ _ _) as [err|bucket]; [done|].
  cbv zeta.
  destruct (1 <=? _);
    destruct (Redis.HMSET _ _ _ _ _ _) as [err|σ1] eqn:Hset; cbn [fst]; try done;
    unfold Redis.HMSET in Hset;
    destruct (Redis.live σ (key tb)) as [[[s|h] t]|]; try done;
    injection Hset as <-; unfold Redis.EXPIRE;
    try (destruct (Redis.live _ _)); done.
Qed.

(** With no time passing, a stored bucket of [n] tokens lets [n] calls
    through and denies the next. *)
Lemma drain tb now σ (n : nat) :
  Redis.online σ = true →
  stored tb σ = (Some (Z.of_nat n), Some now) →
  Z.of_nat n ≤ capacity tb →
  answers tb (replicate (S n) (0, now)) σ = replicate n true ++ [false]
  ∧ stored tb (after tb (replicate (S n) (0, now)) σ) = (Some 0, Some now).
Proof.
  revert σ. induction n as [|n IH]; intros σ Hon Hst Hcap.
  - cbn [replicate answers after]. rewrite tick_0.
    pose proof (Allow_stored tb now σ _ Hon (stored_Some_HMGET tb σ _ _ Hst))
      as [_ Hdenied].
    cbn [fst snd default id] in Hdenied.
    replace (Z.min (capacity tb) (Z.of_nat 0 + (now - now) * rate tb)) with 0 in Hdenied
      by lia.
    destruct (Hdenied ltac:(lia)) as [-> ->]. done.
  - change (replicate (S (S n)) (0, now)) with ((0, now) :: replicate (S n) (0, now)).
    cbn [answers after]. rewrite tick_0.
    pose proof (Allow_stored tb now σ _ Hon (stored_Some_HMGET tb σ _ _ Hst))
      as [Hallowed _].
    cbn [fst snd default id] in Hallowed.
    replace (Z.min (capacity tb) (Z.of_nat (S n) + (now - now) * rate tb))
      with (Z.of_nat (S n)) in Hallowed by lia.
    destruct (Hallowed ltac:(lia)) as [Hok Hst1].
    replace (Z.of_nat (S n) - 1) with (Z.of_nat n) in Hst1 by lia.
    destruct (IH (Allow tb now σ).1) as [Hrest Hend];
      [by rewrite Allow_online | done | lia |].
    rewrite Hok, Hrest, Hend. done.
Qed.

End TokenBucketRuns.







Section TokenBucketExpiry.

Import TokenBucket.
Local Open Scope Z_scope.

(** A call that was let through leaves the key with an hour to live. *)
Lemma Allow_allowed_expires tb now σ d :
  (Allow tb now σ).2 = (true, None) →
  3600 * Second ≤ d →
  Redis.online σ = true
  ∧ 1 ≤ capacity tb
  ∧ Redis.live (Redis.tick d (Allow tb now σ).1) (key tb) = None.
Proof.
  unfold Allow, Eval. destruct (Redis.online σ) eqn:Hon; [|done].
  unfold script. destruct (Redis.HMGET σ (key tb) "tokens" "last_time") as [err|bucket];
    [done|].
  cbv zeta. set (nt := Z.min _ _).
  destruct (Z.leb_spec 1 nt) as [H1 | H1].
  - destruct (HMSET_stored σ (key tb) (nt - 1) now)
      as [(err & -> & _) | (σ' & h & t & -> & -> & He & _)]; [done|].
    intros _ Hd. split; [done|]. split; [subst nt; lia|].
    unfold Redis.EXPIRE. rewrite live_put by done. cbn [fst Redis.val].
    unfold Redis.live, Redis.tick, Redis.put. cbn [Redis.db Redis.time].
    rewrite lookup_insert_eq. unfold Redis.expired. cbn [Redis.expireAt].
    destruct (Z.leb_spec (Redis.time σ + 3600 * Second) (Redis.time σ + d)); [done|lia].
  - destruct (Redis.HMSET _ _ _ _ _ _); done.
Qed.

End TokenBucketExpiry.



(** X5. [Allow] returns an error exactly when Redis is not reached or the
    key of the bucket holds a string instead of a hash; the call is then
    not let through and the server is left as it was. *)
Theorem token_bucket_errors (tb : TokenBucket.TokenBucket) (now : Z) (σ : Redis.server) :
  ((TokenBucket.Allow tb now σ).2.2 ≠ None
   ↔ Redis.online σ = false
     ∨ ∃ s t, Redis.live σ (TokenBucket.key tb)
              = Some {| Redis.val := Redis.VString s; Redis.expireAt := t |})
  ∧ ((TokenBucket.Allow tb now σ).2.2 ≠ None →
     (TokenBucket.Allow tb now σ).2.1 = false
     ∧ (TokenBucket.Allow tb now σ).1 = σ).
Proof.
  destruct (Redis.online σ) eqn:Hon.
  2: { rewrite (Allow_offline tb now σ Hon). cbn [fst snd]. split; [|done].
       split; [by left | done]. }
  destruct (Redis.live σ (TokenBucket.key tb)) as [[[s|h] t]|] eqn:Hlive.
  - (* a string under the key *)
    assert (Hget : Redis.HMGET σ (TokenBucket.key tb) "tokens" "last_time"
                   = inl Redis.WRONGTYPE).
    { unfold Redis.HMGET. by rewrite Hlive. }
    unfold TokenBucket.Allow, TokenBucket.Eval, TokenBucket.script.
    rewrite Hon, Hget. cbn [fst snd]. split; [|done].
    split; [intros _; right; by eexists _, _ | done].
  - (* a hash *)
    assert (Hget : Redis.HMGET σ (TokenBucket.key tb) "tokens" "last_time"
                   = inr (h !! "tokens", h !! "last_time")).
    { unfold Redis.HMGET. by rewrite Hlive. }
    destruct (Allow_stored tb now σ _ Hon Hget) as [Hallowed Hdenied].
    cbv zeta in Hallowed, Hdenied.
    assert (Hnone : (TokenBucket.Allow tb now σ).2.2 = None).
    { destruct (Z.le_gt_cases 1 (Z.min (TokenBucket.capacity tb)
        (default (TokenBucket.capacity tb) (h !! "tokens", h !! "last_time").1
         + (now - default now (h !! "tokens", h !! "last_time").2)
           * TokenBucket.rate tb))) as [H1 | H1];
        [destruct (Hallowed H1) as [-> _] | destruct (Hdenied H1) as [-> _]]; done. }
    rewrite Hnone. split; [|done]. split; [done|].
    intros [? | (s & t' & ?)]; done.
  - (* nothing *)
    assert (Hget : Redis.HMGET σ (TokenBucket.key tb) "tokens" "last_time"
                   = inr (None, None)).
    { unfold Redis.HMGET. by rewrite Hlive. }
    destruct (Allow_stored tb now σ _ Hon Hget) as [Hallowed Hdenied].
    cbv zeta in Hallowed, Hdenied.
    assert (Hnone : (TokenBucket.Allow tb now σ).2.2 = None).
    { destruct (Z.le_gt_cases 1 (Z.min (TokenBucket.capacity tb)
        (default (TokenBucket.capacity tb) (@None Z, @None Z).1
         + (now - default now (@None Z, @None Z).2) * TokenBucket.rate tb))) as [H1 | H1];
        [destruct (Hallowed H1) as [-> _] | destruct (Hdenied H1) as [-> _]]; done. }
    rewrite Hnone. split; [|done]. split; [done|].
    intros [? | (s & t' & ?)]; done.
Qed.

Lemma token_bucket_errors_witness :
  (TokenBucket.Allow TokenBucket.limiter 100 (Redis.connect false Redis.empty)).2.2 ≠ None
  ∧ (TokenBucket.Allow TokenBucket.limiter 100 (Redis.connect false Redis.empty)).2.1
    = false
  ∧ (TokenBucket.Allow TokenBucket.limiter 100 (Redis.connect false Redis.empty)).1
    = Redis.connect false Redis.empty.
Proof.
  assert (Herr : (TokenBucket.Allow TokenBucket.limiter 100
                    (Redis.connect false Redis.empty)).2.2 ≠ None) by discriminate.
  split; [exact Herr|].
  exact (proj2 (token_bucket_errors TokenBucket.limiter 100
                  (Redis.connect false Redis.empty)) Herr).
Defined.

(** ** Circuit breaker: what every breaker satisfies *)

Section BreakerInvariants.

Import CircuitBreaker.
Local Open Scope Z_scope.

Context {W : Type} (clock : W → Z).
Implicit Types (cb : CircuitBreaker) (fn : @protected W) (w : W).

(** Failures below the threshold, with the count they leave. *)
Lemma Calls_failures_below (fns : list (@protected W)) cb w :
  all_fail clock cb fns w →
  state cb = StateClosed →
  0 ≤ failureCount cb →
  failureCount cb + Z.of_nat (length fns) < failureThreshold cb →
  failureThreshold cb ≤ MaxInt →
  state (Calls clock cb fns w).1 = StateClosed
  ∧ failureCount (Calls clock cb fns w).1 = failureCount cb + Z.of_nat (length fns)
  ∧ failureThreshold (Calls clock cb fns w).1 = failureThreshold cb.
Proof.
  revert cb w. induction fns as [|fn fns IH]; intros cb w Hall Hst Hfc Hlt Hmax.
  - simpl. repeat split; (done || lia).
  - destruct Hall as [Hfn Hall]. cbn [Calls].
    rewrite length_cons, Nat2Z.inj_succ in *.
    rewrite Call_allowed in * by (rewrite Hst; done).
    destruct (fn w) as [w' [e|]]; [|done]. cbn [fst snd] in *.
    rewrite record_closed_failure in * by (unfold MinInt, MaxInt in *; done || lia).
    destruct (Z.leb_spec (failureThreshold cb) (failureCount cb + 1)); [lia|].
    destruct (IH _ w' Hall) as (H1 & H2 & H3);
      cbn [state failureCount failureThreshold] in *; try done; try lia.
    split; [done|]. split; [lia|done].
Qed.

(** A success on a closed breaker clears the count of failures. *)
Lemma record_closed_success cb now :
  state cb = StateClosed →
  state (record cb None now) = StateClosed
  ∧ failureCount (record cb None now) = 0
  ∧ failureThreshold (record cb None now) = failureThreshold cb.
Proof.
  intros Hst. unfold record. rewrite Hst.
  rewrite (bool_decide_eq_false_2 (StateClosed = StateHalfOpen)) by done. done.
Qed.

End BreakerInvariants.

(** X6. What every breaker satisfies, for a threshold [N] between 1 and
    the largest [int]: whatever calls were made on it since
    [NewCircuitBreaker(N, timeout)], its threshold and timeout are the
    configured ones; while it is Closed its failure count is at least 0 and
    below [N]; and while it is HalfOpen between two calls exactly one
    success is counted, so that the next success closes it. *)
Theorem breaker_invariant {W : Type} (clock : W → Z) (N timeout : Z)
    (cb : CircuitBreaker.CircuitBreaker) :
  (1 ≤ N ≤ MaxInt)%Z →
  CircuitBreaker.reached clock N timeout cb →
  CircuitBreaker.failureThreshold cb = N
  ∧ CircuitBreaker.timeout cb = timeout
  ∧ (CircuitBreaker.state cb = CircuitBreaker.StateClosed →
     (0 ≤ CircuitBreaker.failureCount cb < N)%Z)
  ∧ (CircuitBreaker.state cb = CircuitBreaker.StateHalfOpen →
     CircuitBreaker.successCount cb = 1%Z).
Proof.
  intros HN Hreached. induction Hreached as [|cb fn w Hreached IH].
  - simpl. repeat split; (done || lia).
  - destruct IH as (Hth & Hto & Hclosed & Hhalf).
    unfold CircuitBreaker.Call, CircuitBreaker.allow.
    destruct (CircuitBreaker.state cb) eqn:Hst.
    + (* Closed *)
      cbn [negb]. destruct (fn w) as [w' [e|]]; cbn [fst].
      * rewrite record_closed_failure
          by (done || specialize (Hclosed eq_refl); unfold MinInt, MaxInt in *; lia).
        specialize (Hclosed eq_refl).
        destruct (Z.leb_spec (CircuitBreaker.failureThreshold cb)
                    (CircuitBreaker.failureCount cb + 1)); simpl;
          repeat split; try done; lia.
      * destruct (record_closed_success cb (clock w') Hst) as (H1 & H2 & H3).
        unfold CircuitBreaker.record in *. rewrite Hst in *.
        rewrite (bool_decide_eq_false_2
                   (CircuitBreaker.StateClosed = CircuitBreaker.StateHalfOpen)) in * by done.
        simpl. repeat split; try done; lia.
    + (* Open *)
      destruct (_ <? _)%Z; cbn [negb fst].
      * destruct (fn w) as [w' [e|]]; cbn [fst]; unfold CircuitBreaker.record; simpl;
          repeat split; try done.
      * rewrite Hst. repeat split; done.
    + (* HalfOpen *)
      cbn [negb]. specialize (Hhalf eq_refl).
      destruct (fn w) as [w' [e|]]; cbn [fst]; unfold CircuitBreaker.record;
        rewrite Hst, ?Hhalf; simpl; repeat split; try done; lia.
Qed.

Lemma breaker_invariant_witness :
  (1 ≤ 3 ≤ MaxInt)%Z
  ∧ CircuitBreaker.reached CircuitBreaker.probe_clock 3 (60 * Second)
      (CircuitBreaker.Call CircuitBreaker.probe_clock
         (CircuitBreaker.NewCircuitBreaker 3 (60 * Second))
         CircuitBreaker.down (0%Z, 0%nat)).1.1
  ∧ (0 ≤ CircuitBreaker.failureCount
           (CircuitBreaker.Call CircuitBreaker.probe_clock
              (CircuitBreaker.NewCircuitBreaker 3 (60 * Second))
              CircuitBreaker.down (0%Z, 0%nat)).1.1 < 3)%Z.
Proof.
  assert (HN : (1 ≤ 3 ≤ MaxInt)%Z) by (by split; vm_compute).
  assert (Hreached : CircuitBreaker.reached CircuitBreaker.probe_clock 3 (60 * Second)
                       (CircuitBreaker.Call CircuitBreaker.probe_clock
                          (CircuitBreaker.NewCircuitBreaker 3 (60 * Second))
                          CircuitBreaker.down (0%Z, 0%nat)).1.1).
  { apply CircuitBreaker.reached_Call, CircuitBreaker.reached_new. }
  split; [exact HN|]. split; [exact Hreached|].
  destruct (breaker_invariant CircuitBreaker.probe_clock 3 (60 * Second) _ HN Hreached)
    as (_ & _ & Hclosed & _).
  apply Hclosed. reflexivity.
Defined.

(** X7. Only consecutive failures open the breaker: on a Closed breaker
    with no failure counted and a threshold [N] between 1 and the largest
    [int], fewer than [N] failed calls, then one successful call, then
    again fewer than [N] failed calls leave the breaker Closed, however
    many failures that makes in all. *)
Theorem breaker_success_clears_failures {W : Type} (clock : W → Z) (N : Z)
    (cb : CircuitBreaker.CircuitBreaker)
    (fns1 fns2 : list CircuitBreaker.protected) (f : CircuitBreaker.protected) (w : W) :
  (1 ≤ N ≤ MaxInt)%Z →
  CircuitBreaker.state cb = CircuitBreaker.StateClosed →
  CircuitBreaker.failureCount cb = 0%Z →
  CircuitBreaker.failureThreshold cb = N →
  CircuitBreaker.all_fail clock cb fns1 w →
  (Z.of_nat (length fns1) < N)%Z →
  (f (CircuitBreaker.Calls clock cb fns1 w).2).2 = None →
  CircuitBreaker.all_fail clock
    (CircuitBreaker.Call clock (CircuitBreaker.Calls clock cb fns1 w).1 f
       (CircuitBreaker.Calls clock cb fns1 w).2).1.1
    fns2
    (CircuitBreaker.Call clock (CircuitBreaker.Calls clock cb fns1 w).1 f
       (CircuitBreaker.Calls clock cb fns1 w).2).1.2 →
  (Z.of_nat (length fns2) < N)%Z →
  CircuitBreaker.state
    (CircuitBreaker.Calls clock
       (CircuitBreaker.Call clock (CircuitBreaker.Calls clock cb fns1 w).1 f
          (CircuitBreaker.Calls clock cb fns1 w).2).1.1
       fns2
       (CircuitBreaker.Call clock (CircuitBreaker.Calls clock cb fns1 w).1 f
          (CircuitBreaker.Calls clock cb fns1 w).2).1.2).1
  = CircuitBreaker.StateClosed.
Proof.
  intros HN Hst Hfc Hth Hall1 Hlen1 Hok Hall2 Hlen2.
  destruct (Calls_failures_below clock fns1 cb w Hall1 Hst) as (Hst1 & Hfc1 & Hth1);
    [lia.. |].
  destruct (CircuitBreaker.Calls clock cb fns1 w) as [cb1 w1]. cbn [fst snd] in *.
  rewrite Call_allowed in * by (rewrite Hst1; done).
  rewrite Hok in *. cbn [fst snd] in *.
  destruct (record_closed_success cb1 (clock (f w1).1) Hst1) as (Hst2 & Hfc2 & Hth2).
  by destruct (Calls_failures_below clock fns2 _ _ Hall2 Hst2) as (? & _); try lia.
Qed.

Lemma breaker_success_clears_failures_witness :
  (1 ≤ 3 ≤ MaxInt)%Z
  ∧ CircuitBreaker.state
      (CircuitBreaker.Calls CircuitBreaker.probe_clock
         (CircuitBreaker.NewCircuitBreaker 3 (60 * Second))
         [CircuitBreaker.down; CircuitBreaker.down; CircuitBreaker.up;
          CircuitBreaker.down; CircuitBreaker.down] (0%Z, 0%nat)).1
    = CircuitBreaker.StateClosed.
Proof.
  assert (HN : (1 ≤ 3 ≤ MaxInt)%Z) by (by split; vm_compute).
  split; [exact HN|].
  apply (breaker_success_clears_failures CircuitBreaker.probe_clock 3
           (CircuitBreaker.NewCircuitBreaker 3 (60 * Second))
           [CircuitBreaker.down; CircuitBreaker.down]
           [CircuitBreaker.down; CircuitBreaker.down]
           CircuitBreaker.up (0%Z, 0%nat));
    [exact HN | reflexivity | reflexivity | reflexivity | by repeat split
    | simpl; lia | reflexivity | by repeat split | simpl; lia].
Defined.

(** X8. A threshold of one or less, zero and negative values included,
    does not switch the breaker off: it starts Closed, so calls go through,
    and the first failure opens it. *)
Theorem breaker_threshold_at_most_one {W : Type} (clock : W → Z) (N timeout : Z)
    (fn : CircuitBreaker.protected) (w : W) :
  (N ≤ 1)%Z →
  (fn w).2 ≠ None →
  CircuitBreaker.Call clock (CircuitBreaker.NewCircuitBreaker N timeout) fn w
  = (CircuitBreaker.record (CircuitBreaker.NewCircuitBreaker N timeout)
       (fn w).2 (clock (fn w).1), (fn w).1, (fn w).2)
  ∧ CircuitBreaker.state
      (CircuitBreaker.Call clock (CircuitBreaker.NewCircuitBreaker N timeout) fn w).1.1
    = CircuitBreaker.StateOpen.
Proof.
  intros HN Hfn.
  assert (Hcall := Call_allowed clock (CircuitBreaker.NewCircuitBreaker N timeout) fn w
                     ltac:(done)).
  split; [exact Hcall|]. rewrite Hcall. cbn [fst].
  destruct (fn w) as [w' [e|]]; [|done]. cbn [fst snd].
  rewrite record_closed_failure by (done || by split; vm_compute).
  cbn [CircuitBreaker.failureThreshold CircuitBreaker.failureCount
       CircuitBreaker.NewCircuitBreaker].
  destruct (Z.leb_spec N (0 + 1)); [done | lia].
Qed.

Lemma breaker_threshold_at_most_one_witness :
  (0 ≤ 1)%Z
  ∧ (CircuitBreaker.down (0%Z, 0%nat)).2 ≠ None
  ∧ CircuitBreaker.state
      (CircuitBreaker.Call CircuitBreaker.probe_clock
         (CircuitBreaker.NewCircuitBreaker 0 (60 * Second))
         CircuitBreaker.down (0%Z, 0%nat)).1.1
    = CircuitBreaker.StateOpen.
Proof.
  assert (HN : (0 ≤ 1)%Z) by lia.
  assert (Hfn : (CircuitBreaker.down (0%Z, 0%nat)).2 ≠ None) by discriminate.
  split; [exact HN|]. split; [exact Hfn|].
  exact (proj2 (breaker_threshold_at_most_one CircuitBreaker.probe_clock 0 (60 * Second)
                  CircuitBreaker.down (0%Z, 0%nat) HN Hfn)).
Defined.

(** ** Idempotency middleware: the other paths *)

Section MiddlewareMore.

Import Middleware.
Local Open Scope Z_scope.

Context {A : Type} (operation : A → A * Z).
Implicit Types (w : world A) (req : Request) (σ : Redis.server).

(** GET and HEAD go straight to the operation. *)
Lemma serve_read rid req w :
  Method req = "GET" ∨ Method req = "HEAD" →
  serve operation rid req w
  = ({| status := (operation (app w)).2; json := []; aborted := false; pending := false |},
     {| redis := redis w;
        app := (operation (app w)).1;
        trace := trace w ++ [(rid, EvOperation (operation (app w)).2)] |}).
Proof.
  intros Hm. unfold serve, IdempotentMiddleware.
  assert (bool_decide (Method req = "GET") || bool_decide (Method req = "HEAD") = true)
    as ->.
  { destruct Hm as [-> | ->]; done. }
  cbn [exec]. unfold run_pending, fresh. cbn [pending aborted negb andb].
  by destruct (operation (app w)).
Qed.

(** No key: 400, and nothing else. *)
Lemma serve_no_key rid req w :
  Method req ≠ "GET" → Method req ≠ "HEAD" →
  GetHeader req "X-Idempotent-Key" = "" →
  serve operation rid req w
  = ({| status := StatusBadRequest; json := [(StatusBadRequest, "缺少幂等性令牌")];
        aborted := true; pending := true |}, w).
Proof.
  intros Hget Hhead Hkey. unfold serve, IdempotentMiddleware.
  by rewrite (bool_decide_eq_false_2 _ Hget), (bool_decide_eq_false_2 _ Hhead), Hkey.
Qed.

(** The lock is taken by someone else: 429, and Redis is left alone. *)
Lemma serve_busy rid req key w :
  guarded req key →
  Redis.online (redis w) = true →
  Redis.live (redis w) (redisKey key) = None →
  is_Some (Redis.live (redis w) (lockKey key)) →
  serve operation rid req w
  = ({| status := StatusTooManyRequests;
        json := [(StatusTooManyRequests, "请求处理中，请稍后")];
        aborted := true; pending := true |},
     {| redis := redis w;
        app := app w;
        trace := trace w ++ [(rid, EvExists (redisKey key) 0);
                             (rid, EvLock (lockKey key) false)] |}).
Proof.
  intros Hreq Hon Hrec [e Hlock]. unfold serve.
  rewrite (IdempotentMiddleware_guarded req key Hreq).
  cbn [exec]. unfold do_Exists, Redis.EXISTS. rewrite Hon, Hrec.
  cbn [exec Z.ltb Z.compare]. unfold do_Lock, Redis.SETNX, emit. cbn [redis].
  rewrite Hon, Hlock. cbn [exec negb orb]. rewrite orb_true_r.
  cbn [exec]. unfold run_pending, do_Abort, do_JSON, fresh.
  cbn [pending aborted negb andb app trace json status app_nil_l].
  by rewrite <- app_assoc.
Qed.

(** Redis is not reached: both calls fail and the request is answered
    429. *)
Lemma serve_offline rid req key w :
  guarded req key →
  Redis.online (redis w) = false →
  serve operation rid req w
  = ({| status := StatusTooManyRequests;
        json := [(StatusTooManyRequests, "请求处理中，请稍后")];
        aborted := true; pending := true |},
     {| redis := redis w;
        app := app w;
        trace := trace w ++ [(rid, EvFailed (redisKey key));
                             (rid, EvFailed (lockKey key))] |}).
Proof.
  intros Hreq Hoff. unfold serve.
  rewrite (IdempotentMiddleware_guarded req key Hreq).
  cbn [exec]. unfold do_Exists. rewrite Hoff.
  cbn [exec Z.ltb Z.compare]. unfold do_Lock, failed, emit. cbn [redis].
  rewrite Hoff. cbn [exec negb orb].
  rewrite bool_decide_eq_true_2 by done.
  cbn [exec orb]. unfold run_pending, do_Abort, do_JSON, fresh.
  cbn [pending aborted negb andb app trace json status].
  by rewrite <- app_assoc.
Qed.

End MiddlewareMore.

(** X9. GET and HEAD requests are not guarded: whatever their headers and
    whether or not Redis is reached, the middleware sends no command to
    Redis and the operation runs once. *)
Theorem idempotent_reads_pass {A : Type} (operation : A → A * Z) (id : nat)
    (req : Middleware.Request) (w : Middleware.world A) :
  Middleware.Method req = "GET" ∨ Middleware.Method req = "HEAD" →
  Middleware.serve operation id req w
  = ({| Middleware.status := (operation (Middleware.app w)).2;
        Middleware.json := [];
        Middleware.aborted := false;
        Middleware.pending := false |},
     {| Middleware.redis := Middleware.redis w;
        Middleware.app := (operation (Middleware.app w)).1;
        Middleware.trace :=
          Middleware.trace w
          ++ [(id, Middleware.EvOperation (operation (Middleware.app w)).2)] |}).
Proof. apply serve_read. Qed.

Lemma idempotent_reads_pass_witness :
  (Middleware.Method {| Middleware.Method := "GET"; Middleware.Header := [] |} = "GET"
   ∨ Middleware.Method {| Middleware.Method := "GET"; Middleware.Header := [] |} = "HEAD")
  ∧ Middleware.app
      (Middleware.serve Middleware.submit 1
         {| Middleware.Method := "GET"; Middleware.Header := [] |} Middleware.idle).2
    = 1.
Proof.
  assert (Hm : Middleware.Method {| Middleware.Method := "GET"; Middleware.Header := [] |}
               = "GET"
               ∨ Middleware.Method {| Middleware.Method := "GET"; Middleware.Header := [] |}
                 = "HEAD") by (by left).
  split; [exact Hm|].
  rewrite (idempotent_reads_pass Middleware.submit 1 _ Middleware.idle Hm). reflexivity.
Defined.

(** X10. While another request holds the lock of the key and no
    completion record exists, a request with that key is answered 429
    after its check and its failed attempt to lock: the operation is not
    run, and Redis is left as it was, so the lock of the holder is not
    released by the request that was turned away. *)
Theorem idempotent_busy_key {A : Type} (operation : A → A * Z) (id : nat)
    (req : Middleware.Request) (key : string) (w : Middleware.world A) :
  Middleware.guarded req key →
  Redis.online (Middleware.redis w) = true →
  Redis.live (Middleware.redis w) (Middleware.redisKey key) = None →
  is_Some (Redis.live (Middleware.redis w) (Middleware.lockKey key)) →
  Middleware.serve operation id req w
  = ({| Middleware.status := Middleware.StatusTooManyRequests;
        Middleware.json := [(Middleware.StatusTooManyRequests, "请求处理中，请稍后")];
        Middleware.aborted := true;
        Middleware.pending := true |},
     {| Middleware.redis := Middleware.redis w;
        Middleware.app := Middleware.app w;
        Middleware.trace :=
          Middleware.trace w
          ++ [(id, Middleware.EvExists (Middleware.redisKey key) 0);
              (id, Middleware.EvLock (Middleware.lockKey key) false)] |}).
Proof. apply serve_busy. Qed.

(** X11. While Redis is not reached every guarded request is turned
    away: the error of the check is ignored, the lock attempt fails, and
    the request is answered 429 without the operation being run. *)
Theorem idempotent_redis_down {A : Type} (operation : A → A * Z) (id : nat)
    (req : Middleware.Request) (key : string) (w : Middleware.world A) :
  Middleware.guarded req key →
  Redis.online (Middleware.redis w) = false →
  Middleware.serve operation id req w
  = ({| Middleware.status := Middleware.StatusTooManyRequests;
        Middleware.json := [(Middleware.StatusTooManyRequests, "请求处理中，请稍后")];
        Middleware.aborted := true;
        Middleware.pending := true |},
     {| Middleware.redis := Middleware.redis w;
        Middleware.app := Middleware.app w;
        Middleware.trace :=
          Middleware.trace w
          ++ [(id, Middleware.EvFailed (Middleware.redisKey key));
              (id, Middleware.EvFailed (Middleware.lockKey key))] |}).
Proof. apply serve_offline. Qed.

Section MiddlewareLocks.

Import Middleware.
Local Open Scope Z_scope.

Context {A : Type} (operation : A → A * Z).
Implicit Types (w : world A) (req : Request) (σ : Redis.server).

(** A lock taken for [ttl] and never released is there for [ttl] and gone
    after. *)
Lemma lock_lifetime σ key value ttl d :
  0 < ttl → 0 ≤ d →
  Redis.live σ key = None →
  Redis.live (Redis.tick d (Redis.SETNX σ key value ttl).1) key
  = if d <? ttl
    then Some {| Redis.val := Redis.VString value;
                 Redis.expireAt := Some (Redis.time σ + ttl) |}
    else None.
Proof.
  intros Httl Hd Hfree. unfold Redis.SETNX. rewrite Hfree. cbn [fst].
  unfold Redis.live, Redis.tick, Redis.put, Redis.deadline. cbn [Redis.db Redis.time].
  rewrite lookup_insert_eq. destruct (Z.eqb_spec ttl 0); [lia|].
  unfold Redis.expired. cbn [Redis.expireAt].
  destruct (Z.leb_spec (Redis.time σ + ttl) (Redis.time σ + d)), (Z.ltb_spec d ttl);
    done || lia.
Qed.

(** Writing one key and waiting leaves a key that was not there not
    there. *)
Lemma other_key_stays_away σ key key' value ttl d :
  key ≠ key' → 0 ≤ d →
  Redis.live σ key' = None →
  Redis.live (Redis.tick d (Redis.SETNX σ key value ttl).1) key' = None.
Proof.
  intros Hne Hd Hfree.
  destruct (live_tick (Redis.SETNX σ key value ttl).1 key' d Hd) as [-> | ->]; [|done].
  unfold Redis.SETNX. destruct (Redis.live σ key); cbn [fst]; [done|].
  unfold Redis.live, Redis.put in *. cbn [Redis.db Redis.time].
  by rewrite lookup_insert_ne.
Qed.

End MiddlewareLocks.

(** X12. A lock left behind heals itself: when a request took the lock of
    a key and never released it (it crashed before its deferred unlock),
    requests with that key are answered 429 during the 30 seconds of the
    lock's expiry, and from then on the next one takes the lock and runs
    the operation. *)
Theorem idempotent_stale_lock {A : Type} (operation : A → A * Z) (id0 id : nat)
    (req : Middleware.Request) (key : string) (w : Middleware.world A) :
  Middleware.guarded req key →
  Redis.online (Middleware.redis w) = true →
  Redis.live (Middleware.redis w) (Middleware.redisKey key) = None →
  Redis.live (Middleware.redis w) (Middleware.lockKey key) = None →
  let crashed := (Middleware.do_Lock id0 (Middleware.lockKey key) (30 * Second) w).1 in
  (∀ d, (0 ≤ d < 30 * Second)%Z →
     Middleware.status (Middleware.serve operation id req (Middleware.wait d crashed)).1
     = Middleware.StatusTooManyRequests
     ∧ Middleware.app (Middleware.serve operation id req (Middleware.wait d crashed)).2
       = Middleware.app w)
  ∧ (∀ d, (30 * Second ≤ d)%Z →
       Middleware.app (Middleware.serve operation id req (Middleware.wait d crashed)).2
       = (operation (Middleware.app w)).1
       ∧ ∃ rest,
           Middleware.trace
             (Middleware.serve operation id req (Middleware.wait d crashed)).2
           = Middleware.trace crashed
             ++ [(id, Middleware.EvExists (Middleware.redisKey key) 0);
                 (id, Middleware.EvLock (Middleware.lockKey key) true);
                 (id, Middleware.EvOperation (operation (Middleware.app w)).2)]
             ++ rest).
Proof.
  intros Hreq Hon Hrec Hlock crashed.
  assert (Hcrashed : crashed
            = {| Middleware.redis :=
                   (Redis.SETNX (Middleware.redis w) (Middleware.lockKey key) "locked"
                      (30 * Second)).1;
                 Middleware.app := Middleware.app w;
                 Middleware.trace :=
                   Middleware.trace w ++ [(id0, Middleware.EvLock (Middleware.lockKey key) true)] |}).
  { subst crashed. unfold Middleware.do_Lock. rewrite Hon.
    unfold Redis.SETNX. rewrite Hlock. done. }
  assert (Hon' : ∀ d, Redis.online (Middleware.redis (Middleware.wait d crashed)) = true).
  { intros d. rewrite Hcrashed. unfold Redis.SETNX. by rewrite Hlock. }
  assert (Hrec' : ∀ d, (0 ≤ d)%Z →
            Redis.live (Middleware.redis (Middleware.wait d crashed))
              (Middleware.redisKey key) = None).
  { intros d Hd. rewrite Hcrashed. cbn [Middleware.wait Middleware.redis].
    apply other_key_stays_away; [|done|done].
    intros H. by apply (redisKey_lockKey key key). }
  assert (Hlock' : ∀ d, (0 ≤ d)%Z →
            Redis.live (Middleware.redis (Middleware.wait d crashed))
              (Middleware.lockKey key)
            = if (d <? 30 * Second)%Z
              then Some {| Redis.val := Redis.VString "locked";
                           Redis.expireAt :=
                             Some (Redis.time (Middleware.redis w) + 30 * Second)%Z |}
              else None).
  { intros d Hd. rewrite Hcrashed. cbn [Middleware.wait Middleware.redis].
    apply lock_lifetime; [by vm_compute | done | done]. }
  split; intros d Hd.
  - rewrite (serve_busy operation id req key); [| done | done | apply Hrec'; lia |].
    + cbn [fst snd Middleware.status Middleware.app Middleware.wait].
      split; [done|]. by rewrite Hcrashed.
    + rewrite Hlock' by lia. destruct (Z.ltb_spec d (30 * Second)); [by eexists | lia].
  - assert (Hd0 : (0 ≤ d)%Z) by (unfold Second, Nanosecond in *; lia).
    assert (Hfree : Redis.live (Middleware.redis (Middleware.wait d crashed))
                      (Middleware.lockKey key) = None).
    { rewrite Hlock' by done. destruct (Z.ltb_spec d (30 * Second)); [lia | done]. }
    destruct (serve_first_runs operation id req key (Middleware.wait d crashed)
                Hreq (Hon' d) (Hrec' d Hd0) Hfree) as [Happ Htrace].
    split; [rewrite Happ; by rewrite Hcrashed|].
    destruct Htrace as [rest Htrace]. exists rest. rewrite Htrace.
    by rewrite Hcrashed.
Qed.

Lemma idempotent_stale_lock_witness :
  Middleware.guarded (Middleware.post "transfer-42") "transfer-42"
  ∧ Middleware.status
      (Middleware.serve Middleware.submit 2 (Middleware.post "transfer-42")
         (Middleware.wait (29 * Second)
            (Middleware.do_Lock 1 (Middleware.lockKey "transfer-42") (30 * Second)
               Middleware.idle).1)).1
    = Middleware.StatusTooManyRequests
  ∧ Middleware.app
      (Middleware.serve Middleware.submit 2 (Middleware.post "transfer-42")
         (Middleware.wait (30 * Second)
            (Middleware.do_Lock 1 (Middleware.lockKey "transfer-42") (30 * Second)
               Middleware.idle).1)).2
    = 1.
Proof.
  assert (Hreq : Middleware.guarded (Middleware.post "transfer-42") "transfer-42").
  { unfold Middleware.guarded. repeat split; discriminate || reflexivity. }
  split; [exact Hreq|].
  destruct (idempotent_stale_lock Middleware.submit 1 2 _ _ Middleware.idle Hreq
              eq_refl eq_refl eq_refl) as [Hbusy Hhealed].
  split.
  - apply (Hbusy (29 * Second)%Z). unfold Second, Nanosecond. lia.
  - apply (Hhealed (30 * Second)%Z). lia.
Defined.

Lemma idempotent_busy_key_witness :
  Middleware.guarded (Middleware.post "transfer-42") "transfer-42"
  ∧ is_Some (Redis.live
               (Middleware.redis
                  (Middleware.do_Lock 1 (Middleware.lockKey "transfer-42") (30 * Second)
                     Middleware.idle).1)
               (Middleware.lockKey "transfer-42"))
  ∧ Middleware.app
      (Middleware.serve Middleware.submit 2 (Middleware.post "transfer-42")
         (Middleware.do_Lock 1 (Middleware.lockKey "transfer-42") (30 * Second)
            Middleware.idle).1).2
    = 0.
Proof.
  assert (Hreq : Middleware.guarded (Middleware.post "transfer-42") "transfer-42").
  { unfold Middleware.guarded. repeat split; discriminate || reflexivity. }
  assert (Hheld : is_Some (Redis.live
                    (Middleware.redis
                       (Middleware.do_Lock 1 (Middleware.lockKey "transfer-42")
                          (30 * Second) Middleware.idle).1)
                    (Middleware.lockKey "transfer-42"))) by (vm_compute; by eexists).
  split; [exact Hreq|]. split; [exact Hheld|].
  rewrite (idempotent_busy_key Middleware.submit 2 _ "transfer-42"
             (Middleware.do_Lock 1 (Middleware.lockKey "transfer-42") (30 * Second)
                Middleware.idle).1 Hreq eq_refl eq_refl Hheld).
  reflexivity.
Defined.

Lemma idempotent_redis_down_witness :
  Middleware.guarded (Middleware.post "transfer-42") "transfer-42"
  ∧ Redis.online (Redis.connect false Redis.empty) = false
  ∧ Middleware.status
      (Middleware.serve Middleware.submit 1 (Middleware.post "transfer-42")
         {| Middleware.redis := Redis.connect false Redis.empty;
            Middleware.app := 0; Middleware.trace := [] |}).1
    = Middleware.StatusTooManyRequests
  ∧ Middleware.app
      (Middleware.serve Middleware.submit 1 (Middleware.post "transfer-42")
         {| Middleware.redis := Redis.connect false Redis.empty;
            Middleware.app := 0; Middleware.trace := [] |}).2
    = 0.
Proof.
  assert (Hreq : Middleware.guarded (Middleware.post "transfer-42") "transfer-42").
  { unfold Middleware.guarded. repeat split; discriminate || reflexivity. }
  split; [exact Hreq|]. split; [reflexivity|].
  rewrite (idempotent_redis_down Middleware.submit 1 _ "transfer-42"
             {| Middleware.redis := Redis.connect false Redis.empty;
                Middleware.app := 0; Middleware.trace := [] |} Hreq eq_refl).
  split; reflexivity.
Defined.



(** ** Saga: runs that succeed, and sagas that are run again *)

Section SagaMore.

Import Saga.

Context {U : Type}.
Implicit Types (sts : list (Step U)) (s : Saga (U * list event))
  (w : World (U * list event)) (log : list event).

(** The rollback, for any list of executed steps that are steps of the
    saga: the compensations of the list, last first. *)
Lemma compensate_loop_valid sts s n w :
  steps s = imap spy sts →
  Forall (λ j, j < length sts) (executedSteps s) →
  n ≤ length (executedSteps s) →
  ∃ u' added,
    compensate_loop s n w
      = Some {| user := (u', (user w).2 ++ added);
                stdout := stdout w ++ failure_lines sts added |}
    ∧ calls added = CallCompensate <$> reverse (take n (executedSteps s)).
Proof.
  intros Hst Hvalid Hn. revert w.
  induction n as [|i IH]; intros [[u log] out]; cbn [compensate_loop user stdout snd].
  - exists u, []. by rewrite !app_nil_r.
  - destruct (lookup_lt_is_Some_2 (executedSteps s) i ltac:(lia)) as [j Hj].
    pose proof (Forall_lookup_1 _ _ _ _ Hvalid Hj) as Hjlt. cbn beta in Hjlt.
    rewrite Hj, Hst. cbn [mbind option_bind]. rewrite list_lookup_imap.
    destruct (lookup_lt_is_Some_2 sts j Hjlt) as [st Hst_j].
    rewrite Hst_j. cbn [fmap option_fmap option_map mbind option_bind spy Compensate logged Name].
    destruct (Compensate st u) as [u1 r] eqn:Hc.
    destruct (IH ltac:(lia)
                {| user := (u1, log ++ [(CallCompensate j, r)]);
                   stdout := match r with
                             | Some e => out ++ [compensate_line (Name st) e]
                             | None => out
                             end |}) as (u' & added & Hrun & Hcalls).
    exists u', ((CallCompensate j, r) :: added). split.
    + rewrite Hrun. cbn [user stdout snd]. rewrite <- app_assoc. cbn [app].
      unfold failure_lines. cbn [compensation_failures omap list_omap].
      destruct r as [e|]; cbn [fmap list_fmap]; unfold name_of; rewrite ?Hst_j;
        cbn [fmap option_fmap option_map default]; by rewrite <- ?app_assoc.
    + unfold calls in *. rewrite (take_S_r _ _ _ Hj), reverse_app, fmap_cons, Hcalls.
      done.
Qed.

(** The forward loop from index [i] on a saga whose executed list holds
    steps of the saga. *)
Lemma Execute_loop_valid sts rest i s w :
  steps s = imap spy sts →
  Forall (λ j, j < length sts) (executedSteps s) →
  drop i (imap spy sts) = rest →
  ∃ s' u' r added,
    Execute_loop s i rest w
      = Some (s', {| user := (u', (user w).2 ++ added);
                     stdout := stdout w ++ failure_lines sts added |}, r)
    ∧ steps s' = imap spy sts
    ∧ ((r = None ∧ added = done_from i (length rest)
        ∧ executedSteps s' = executedSteps s ++ seq i (length rest))
       ∨ (∃ k e rolled,
            i ≤ k < length sts
            ∧ r = Some (step_failed (name_of sts k) e)
            ∧ added = done_from i (k - i) ++ (CallDo k, Some e) :: rolled
            ∧ calls rolled
              = CallCompensate <$> reverse (executedSteps s ++ seq i (k - i))
            ∧ executedSteps s' = executedSteps s ++ seq i (k - i))).
Proof.
  intros Hst Hvalid Hrest. revert i s w Hst Hvalid Hrest.
  induction rest as [|step rest IH]; intros i s [[u log] out] Hst Hvalid Hrest;
    cbn [Execute_loop user stdout snd].
  - exists s, u, None, []. rewrite !app_nil_r. split; [done|]. split; [done|].
    by left.
  - assert (Hlen : i < length sts).
    { apply (f_equal length) in Hrest.
      rewrite length_drop, length_imap in Hrest. simpl in Hrest. lia. }
    assert (Hstep : imap spy sts !! i = Some step).
    { rewrite <- (Nat.add_0_r i), <- lookup_drop, Hrest. done. }
    rewrite list_lookup_imap in Hstep.
    destruct (sts !! i) as [st|] eqn:Hi; [|done].
    injection Hstep as <-. cbn [spy Do logged Name].
    destruct (Do st u) as [u1 [e|]] eqn:Hdo.
    + destruct (compensate_loop_valid sts s (length (executedSteps s))
                  {| user := (u1, log ++ [(CallDo i, Some e)]); stdout := out |}
                  Hst Hvalid ltac:(lia)) as (u' & rolled & Hc & Hcalls).
      unfold compensate. rewrite Hc. cbn [mbind option_bind user stdout snd].
      exists s, u', (Some (step_failed (Name st) e)), ((CallDo i, Some e) :: rolled).
      split; [do 3 f_equal; by rewrite <- ?app_assoc|]. split; [done|].
      right. exists i, e, rolled. rewrite Nat.sub_diag. unfold name_of. rewrite Hi.
      cbn [seq]. rewrite app_nil_r, firstn_all in *. done.
    + destruct (IH (S i)
                  {| steps := steps s; executedSteps := executedSteps s ++ [i] |}
                  {| user := (u1, log ++ [(CallDo i, None)]); stdout := out |})
        as (s' & u' & r & added & Hrun & Hst' & Hcases).
      { done. }
      { cbn [executedSteps]. apply Forall_app. split; [done|]. by apply Forall_singleton. }
      { replace (S i) with (i + 1) by lia. by rewrite <- drop_drop, Hrest. }
      rewrite Hrun. cbn [user stdout snd].
      exists s', u', r, ((CallDo i, None) :: added).
      split; [do 3 f_equal; by rewrite <- ?app_assoc|]. split; [done|].
      cbn [executedSteps] in Hcases.
      destruct Hcases as [(-> & -> & Hex) | (k & e & rolled & Hk & -> & -> & Hcalls & Hex)].
      * left. split; [done|]. split; [done|]. rewrite Hex, <- app_assoc. done.
      * right. exists k, e, rolled. split; [lia|]. split; [done|].
        replace (k - i) with (S (k - S i)) by lia.
        split; [done|]. cbn [seq]. rewrite <- !app_assoc in *. done.
Qed.

(** The first run of a saga built from [sts]. *)
Lemma observe_valid sts u :
  ∃ s' u' r log,
    observe sts u
      = Some (s', {| user := (u', log); stdout := failure_lines sts log |}, r)
    ∧ steps s' = imap spy sts
    ∧ ((r = None ∧ log = done_from 0 (length sts)
        ∧ executedSteps s' = seq 0 (length sts))
       ∨ (∃ k e rolled,
            k < length sts
            ∧ r = Some (step_failed (name_of sts k) e)
            ∧ log = done_from 0 k ++ (CallDo k, Some e) :: rolled)).
Proof.
  unfold observe, Execute.
  destruct (steps_build (imap spy sts)) as [Hst Hex].
  destruct (Execute_loop_valid sts (imap spy sts) 0 (build (imap spy sts))
              {| user := (u, []); stdout := [] |} Hst
              ltac:(rewrite Hex; constructor) eq_refl)
    as (s' & u' & r & added & Hrun & Hst' & Hcases).
  rewrite Hst, Hrun. cbn [user stdout snd app].
  exists s', u', r, added. split; [done|]. split; [done|].
  rewrite Hex, length_imap in Hcases. cbn [app] in Hcases.
  destruct Hcases as [(-> & -> & ->) | (k & e & rolled & Hk & -> & -> & _)].
  - by left.
  - right. exists k, e, rolled. rewrite Nat.sub_0_r. split; [lia|done].
Qed.

Lemma failure_lines_done_from sts i n : failure_lines sts (done_from i n) = [].
Proof.
  unfold failure_lines, compensation_failures, done_from.
  revert i. induction n as [|n IH]; intros i; [done|]. cbn. apply IH.
Qed.

End SagaMore.

(** X14. A saga run once returns nil exactly when no action returned an
    error; then the actions of all its steps ran once each, in the order
    they were added, no compensation ran, nothing was printed, and the
    saga holds the indices of all its steps as executed. A saga without
    steps is such a run with no call at all. *)
Theorem saga_success {U : Type} (sts : list (Saga.Step U)) (u : U) :
  ∃ s' w' r,
    Saga.observe sts u = Some (s', w', r)
    ∧ (r = None ↔ ∀ k e, (Saga.CallDo k, Some e) ∉ (Saga.user w').2)
    ∧ (r = None →
       Saga.calls (Saga.user w').2 = Saga.CallDo <$> seq 0 (length sts)
       ∧ Saga.executedSteps s' = seq 0 (length sts)
       ∧ Saga.stdout w' = []).
Proof.
  destruct (observe_valid sts u) as (s' & u' & r & log & Hrun & _ & Hcases).
  eexists _, _, _. split; [exact Hrun|]. cbn [Saga.user Saga.stdout snd].
  destruct Hcases as [(-> & -> & Hex) | (k & e & rolled & Hk & -> & ->)].
  - split.
    + split; [|done]. intros _ k e. apply CallDo_failed_in_done_from.
    + intros _. rewrite calls_done_from. split; [done|]. split; [done|].
      apply failure_lines_done_from.
  - split; [|done]. split; [done|]. intros Hnone. exfalso.
    apply (Hnone k e). apply elem_of_app. right. by left.
Qed.

Lemma saga_success_witness :
  ∃ s' w',
    Saga.observe Saga.settled 0 = Some (s', w', None)
    ∧ Saga.calls (Saga.user w').2 = Saga.CallDo <$> seq 0 3
    ∧ Saga.executedSteps s' = seq 0 3
    ∧ Saga.stdout w' = [].
Proof.
  destruct (saga_success Saga.settled 0) as (s' & w' & r & Hrun & _ & Hdone).
  assert (Hr : r = None).
  { revert Hrun. vm_compute. congruence. }
  subst r. exists s', w'. split; [exact Hrun|]. exact (Hdone eq_refl).
Defined.

(** X15. [Execute] does not clear the list of executed steps, so a saga
    is not to be run twice: when a first run succeeded and, in a second
    run of the same saga, the action of step [k] fails, the rollback calls
    the compensations of steps [k-1..0] of the second run and then the
    compensations of all the steps of the first run, which had
    completed. *)
Theorem saga_run_twice {U : Type} (sts : list (Saga.Step U)) (u : U)
    (s1 : Saga.Saga (U * list Saga.event)) (w1 : Saga.World (U * list Saga.event))
    (k : nat) (e : error) :
  Saga.observe sts u = Some (s1, w1, None) →
  (Saga.CallDo k, Some e) ∈ Saga.log_of (Saga.Execute s1 w1) →
  ∃ s2 w2,
    Saga.Execute s1 w1 = Some (s2, w2, Some (Saga.step_failed (Saga.name_of sts k) e))
    ∧ Saga.calls (Saga.user w2).2
      = (Saga.CallDo <$> seq 0 (length sts))
        ++ (Saga.CallDo <$> seq 0 (S k))
        ++ (Saga.CallCompensate <$> reverse (seq 0 k))
        ++ (Saga.CallCompensate <$> reverse (seq 0 (length sts))).
Proof.
  intros Hfirst Hin.
  destruct (observe_valid sts u) as (s' & u' & r & log & Hrun & Hst & Hcases).
  rewrite Hrun in Hfirst. injection Hfirst as <- <- ->.
  destruct Hcases as [(_ & -> & Hex) | (? & ? & ? & _ & ? & _)]; [|done].
  unfold Saga.Execute in *. rewrite Hst in *.
  destruct (Execute_loop_valid sts (imap Saga.spy sts) 0 s'
              {| Saga.user := (u', Saga.done_from 0 (length sts));
                 Saga.stdout := Saga.failure_lines sts (Saga.done_from 0 (length sts)) |}
              Hst) as (s2 & u2 & r2 & added & Hrun2 & _ & Hcases2); [|done|].
  { rewrite Hex. apply Forall_forall. intros j Hj%elem_of_seq. lia. }
  rewrite Hrun2 in *. cbn [Saga.log_of Saga.user snd] in Hin.
  rewrite Hex in Hcases2.
  destruct Hcases2 as [(-> & -> & _) | (k' & e' & rolled & Hk & -> & -> & Hcalls & _)].
  { apply elem_of_app in Hin as [Hin | Hin];
      by apply CallDo_failed_in_done_from in Hin. }
  rewrite Nat.sub_0_r in *.
  assert (k' = k ∧ e' = e) as [-> ->].
  { apply elem_of_app in Hin as [Hin | Hin];
      [by apply CallDo_failed_in_done_from in Hin|].
    apply elem_of_app in Hin as [Hin | Hin];
      [by apply CallDo_failed_in_done_from in Hin|].
    apply elem_of_cons in Hin as [[= -> ->] | Hin]; [done|].
    by apply (CallDo_not_rolled (Saga.CallDo k) _ _ _ _ Hcalls) in Hin. }
  eexists _, _. split; [done|]. cbn [Saga.user snd].
  unfold Saga.calls in *. rewrite !fmap_app, fmap_cons, Hcalls.
  fold (Saga.calls (Saga.done_from 0 (length sts))).
  fold (Saga.calls (Saga.done_from 0 k)). rewrite !calls_done_from.
  rewrite reverse_app, fmap_app, (seq_S k), fmap_app. cbn [fst fmap list_fmap].
  by rewrite <- !app_assoc.
Qed.

Lemma saga_run_twice_witness :
  ∃ s1 w1 s2 w2 err,
    Saga.observe Saga.settled 0 = Some (s1, w1, None)
    ∧ (Saga.CallDo 2, Some (errors_New "disk full")) ∈ Saga.log_of (Saga.Execute s1 w1)
    ∧ Saga.Execute s1 w1 = Some (s2, w2, Some err)
    ∧ Saga.calls (Saga.user w2).2
      = (Saga.CallDo <$> seq 0 3) ++ (Saga.CallDo <$> seq 0 3)
        ++ (Saga.CallCompensate <$> reverse (seq 0 2))
        ++ (Saga.CallCompensate <$> reverse (seq 0 3)).
Proof.
  destruct (Saga.observe Saga.settled 0) as [[[s1 w1] r1]|] eqn:Hfirst;
    [|exfalso; revert Hfirst; vm_compute; discriminate].
  assert (Hr1 : r1 = None) by (revert Hfirst; vm_compute; congruence).
  subst r1.
  assert (Hin : (Saga.CallDo 2, Some (errors_New "disk full"))
                  ∈ Saga.log_of (Saga.Execute s1 w1)).
  { revert Hfirst. vm_compute. intros [= <- <-]. set_solver. }
  destruct (saga_run_twice Saga.settled 0 s1 w1 2 _ Hfirst Hin) as (s2 & w2 & Hrun & Hcalls).
  eexists s1, w1, s2, w2, _. split; [done|]. split; [exact Hin|].
  split; [exact Hrun | exact Hcalls].
Defined.

(** ** The transfer service *)

Section TransferMore.

Import Saga Transfer.

Context {U Amount : Type}.
Implicit Types (s : TransferService U Amount) (u : U) (amount : Amount).

(** What [Transfer] does, read off one run of its saga: the operations in
    the order they are made, with the result of each, and the final
    state, standard output and error. *)
Lemma Transfer_runs s fromAccount toAccount amount w :
  Transfer s fromAccount toAccount amount w =
    match debitAccount s fromAccount amount (user w) with
    | (u1, Some e) =>
        Some ({| user := u1; stdout := stdout w |}, Some (step_failed "扣减源账户" e))
    | (u1, None) =>
        match creditAccount s toAccount amount u1 with
        | (u2, Some e) =>
            let '(u3, r) := creditAccount s fromAccount amount u2 in
            Some ({| user := u3;
                     stdout := match r with
                               | Some e' => stdout w ++ [compensate_line "扣减源账户" e']
                               | None => stdout w
                               end |},
                  Some (step_failed "增加目标账户" e))
        | (u2, None) =>
            match logTransfer s fromAccount toAccount amount u2 with
            | (u3, Some e) =>
                let '(u4, r1) := debitAccount s toAccount amount u3 in
                let '(u5, r0) := creditAccount s fromAccount amount u4 in
                let out1 := match r1 with
                            | Some e' => stdout w ++ [compensate_line "增加目标账户" e']
                            | None => stdout w
                            end in
                Some ({| user := u5;
                         stdout := match r0 with
                                   | Some e' => out1 ++ [compensate_line "扣减源账户" e']
                                   | None => out1
                                   end |},
                      Some (step_failed "记录转账日志" e))
            | (u3, None) => Some ({| user := u3; stdout := stdout w |}, None)
            end
        end
    end.
Proof.
  unfold Transfer, Execute, AddStep, NewSaga.
  cbn [steps executedSteps app Execute_loop Do Name Compensate].
  destruct (debitAccount s fromAccount amount (user w)) as [u1 [e|]]; [done|].
  cbn [user stdout].
  destruct (creditAccount s toAccount amount u1) as [u2 [e|]].
  { unfold compensate. cbn.
    by destruct (creditAccount s fromAccount amount u2) as [u3 r]. }
  cbn [user stdout].
  destruct (logTransfer s fromAccount toAccount amount u2) as [u3 [e|]]; [|done].
  unfold compensate. cbn.
  destruct (debitAccount s toAccount amount u3) as [u4 r1]. cbn.
  by destruct (creditAccount s fromAccount amount u4) as [u5 r0].
Qed.

End TransferMore.

Section TransferNoted.

Import Saga Transfer.

Context {U Amount : Type}.
Implicit Types (s : TransferService U Amount) (u : U) (amount : Amount).

(** A run on the wrapped service is the run on the service itself, with
    the operations noted on the side. *)
Lemma made_runs s fromAccount toAccount amount u :
  made s fromAccount toAccount amount u =
    match debitAccount s fromAccount amount u with
    | (u1, Some e) =>
        Some ([(Debit fromAccount amount, Some e)], Some (step_failed "扣减源账户" e))
    | (u1, None) =>
        match creditAccount s toAccount amount u1 with
        | (u2, Some e) =>
            let '(u3, r) := creditAccount s fromAccount amount u2 in
            Some ([(Debit fromAccount amount, None); (Credit toAccount amount, Some e);
                   (Credit fromAccount amount, r)],
                  Some (step_failed "增加目标账户" e))
        | (u2, None) =>
            match logTransfer s fromAccount toAccount amount u2 with
            | (u3, Some e) =>
                let '(u4, r1) := debitAccount s toAccount amount u3 in
                let '(u5, r0) := creditAccount s fromAccount amount u4 in
                Some ([(Debit fromAccount amount, None); (Credit toAccount amount, None);
                       (LogTransfer fromAccount toAccount amount, Some e);
                       (Debit toAccount amount, r1); (Credit fromAccount amount, r0)],
                      Some (step_failed "记录转账日志" e))
            | (u3, None) =>
                Some ([(Debit fromAccount amount, None); (Credit toAccount amount, None);
                       (LogTransfer fromAccount toAccount amount, None)], None)
            end
        end
    end.
Proof.
  unfold made. rewrite Transfer_runs.
  cbn [noting debitAccount creditAccount logTransfer noted user stdout].
  destruct (debitAccount s fromAccount amount u) as [u1 [e|]]; [done|].
  cbn [app noted user stdout].
  destruct (creditAccount s toAccount amount u1) as [u2 [e|]]; cbn [app noted user stdout].
  { by destruct (creditAccount s fromAccount amount u2) as [u3 [e'|]]. }
  destruct (logTransfer s fromAccount toAccount amount u2) as [u3 [e|]];
    cbn [app noted user stdout]; [|done].
  destruct (debitAccount s toAccount amount u3) as [u4 [e1|]]; cbn [app noted user stdout];
    by destruct (creditAccount s fromAccount amount u4) as [u5 [e0|]].
Qed.

Lemma not_deleted (ops : list (operation Amount * option error)) :
  Forall (λ o, match o.1 with DeleteTransferLog _ _ _ => False | _ => True end) ops →
  ∀ a b m r, (DeleteTransferLog a b m, r) ∉ ops.
Proof.
  intros H a b m r Hin. rewrite Forall_forall in H. by apply H in Hin.
Qed.

End TransferNoted.

(** X16. [Transfer] returns for every service and every input, and what
    it asks of the service is one of four sequences: the debit of the
    source alone, failed; the debit, the credit of the target failed, and
    the source credited back; the debit, the credit, the log entry failed,
    then the target debited back and the source credited back; or the
    three operations, all successful, which is the only case with a nil
    result. The error names the step that failed. The log entry is never
    deleted: the third step's compensation is not called on any path, and
    a failure of a crediting or debiting back does not reach the result. *)
Theorem transfer_operations {U Amount : Type} (s : Transfer.TransferService U Amount)
    (fromAccount toAccount : string) (amount : Amount) (u : U) :
  ∃ ops err,
    Transfer.made s fromAccount toAccount amount u = Some (ops, err)
    ∧ (∀ a b m r, (Transfer.DeleteTransferLog a b m, r) ∉ ops)
    ∧ match err with
      | None =>
          ops = [(Transfer.Debit fromAccount amount, None);
                 (Transfer.Credit toAccount amount, None);
                 (Transfer.LogTransfer fromAccount toAccount amount, None)]
      | Some err =>
          ∃ e r0 r1,
            (ops = [(Transfer.Debit fromAccount amount, Some e)]
             ∧ err = Saga.step_failed "扣减源账户" e)
            ∨ (ops = [(Transfer.Debit fromAccount amount, None);
                      (Transfer.Credit toAccount amount, Some e);
                      (Transfer.Credit fromAccount amount, r0)]
               ∧ err = Saga.step_failed "增加目标账户" e)
            ∨ (ops = [(Transfer.Debit fromAccount amount, None);
                      (Transfer.Credit toAccount amount, None);
                      (Transfer.LogTransfer fromAccount toAccount amount, Some e);
                      (Transfer.Debit toAccount amount, r1);
                      (Transfer.Credit fromAccount amount, r0)]
               ∧ err = Saga.step_failed "记录转账日志" e)
      end.
Proof.
  rewrite made_runs.
  destruct (Transfer.debitAccount s fromAccount amount u) as [u1 [e|]].
  { eexists _, _. split; [done|]. split; [apply not_deleted; by repeat constructor|].
    exists e, None, None. by left. }
  destruct (Transfer.creditAccount s toAccount amount u1) as [u2 [e|]].
  { destruct (Transfer.creditAccount s fromAccount amount u2) as [u3 r].
    eexists _, _. split; [done|]. split; [apply not_deleted; by repeat constructor|].
    exists e, r, None. right. by left. }
  destruct (Transfer.logTransfer s fromAccount toAccount amount u2) as [u3 [e|]].
  - destruct (Transfer.debitAccount s toAccount amount u3) as [u4 r1].
    destruct (Transfer.creditAccount s fromAccount amount u4) as [u5 r0].
    eexists _, _. split; [done|]. split; [apply not_deleted; by repeat constructor|].
    exists e, r0, r1. right. by right.
  - eexists _, _. split; [done|]. split; [apply not_deleted; by repeat constructor|]. done.
Qed.

(** X17. For a service whose operations change nothing when they fail,
    and whose credit and debit of the same account and amount undo each
    other, a transfer that returns an error leaves the state of the
    service and the standard output as it found them. *)
Theorem transfer_failure_restores {U Amount : Type}
    (s : Transfer.TransferService U Amount)
    (fromAccount toAccount : string) (amount : Amount) (w w' : Saga.World U) (err : error)
    (Hdebit : ∀ a m u u' e, Transfer.debitAccount s a m u = (u', Some e) → u' = u)
    (Hcredit : ∀ a m u u' e, Transfer.creditAccount s a m u = (u', Some e) → u' = u)
    (Hlog : ∀ a b m u u' e, Transfer.logTransfer s a b m u = (u', Some e) → u' = u)
    (Hback : ∀ a m u u',
       Transfer.debitAccount s a m u = (u', None) →
       Transfer.creditAccount s a m u' = (u, None))
    (Hforth : ∀ a m u u',
       Transfer.creditAccount s a m u = (u', None) →
       Transfer.debitAccount s a m u' = (u, None)) :
  Transfer.Transfer s fromAccount toAccount amount w = Some (w', Some err) →
  w' = w.
Proof.
  rewrite Transfer_runs. destruct w as [u out]. cbn [Saga.user Saga.stdout].
  destruct (Transfer.debitAccount s fromAccount amount u) as [u1 [e|]] eqn:H1.
  { intros [= <- _]. by rewrite (Hdebit _ _ _ _ _ H1). }
  destruct (Transfer.creditAccount s toAccount amount u1) as [u2 [e|]] eqn:H2.
  { rewrite (Hcredit _ _ _ _ _ H2), (Hback _ _ _ _ H1). by intros [= <- _]. }
  destruct (Transfer.logTransfer s fromAccount toAccount amount u2) as [u3 [e|]] eqn:H3; [|done].
  rewrite (Hlog _ _ _ _ _ _ H3), (Hforth _ _ _ _ H2), (Hback _ _ _ _ H1).
  by intros [= <- _].
Qed.

Section BankMore.

Import Transfer.

Lemma bank_debit_failed a m u u' e : debitAccount bank a m u = (u', Some e) → u' = u.
Proof.
  cbn. destruct (u !! a) as [b|]; [|congruence].
  destruct (m <=? b)%N; congruence.
Qed.

Lemma bank_credit_failed a m u u' e : creditAccount bank a m u = (u', Some e) → u' = u.
Proof. cbn. destruct (u !! a) as [b|]; congruence. Qed.

Lemma bank_back a m u u' :
  debitAccount bank a m u = (u', None) → creditAccount bank a m u' = (u, None).
Proof.
  cbn. destruct (u !! a) as [b|] eqn:Hb; [|congruence].
  destruct (m <=? b)%N eqn:Hm; [|congruence]. intros [= <-].
  rewrite lookup_insert_eq, insert_insert_eq.
  apply N.leb_le in Hm. replace (b - m + m)%N with b by lia.
  by rewrite insert_id.
Qed.

Lemma bank_forth a m u u' :
  creditAccount bank a m u = (u', None) → debitAccount bank a m u' = (u, None).
Proof.
  cbn. destruct (u !! a) as [b|] eqn:Hb; [|congruence]. intros [= <-].
  rewrite lookup_insert_eq.
  destruct (m <=? b + m)%N eqn:Hm; [|apply N.leb_gt in Hm; lia].
  rewrite insert_insert_eq. replace (b + m - m)%N with b by lia.
  by rewrite insert_id.
Qed.

End BankMore.

Lemma transfer_failure_restores_witness :
  let w := {| Saga.user := ({[ "alice" := 100%N; "bob" := 50%N ]} : gmap string N);
              Saga.stdout := [] |} in
  ∃ err, Transfer.Transfer Transfer.bank "alice" "carol" 30%N w = Some (w, Some err).
Proof.
  intros w.
  destruct (Transfer.Transfer Transfer.bank "alice" "carol" 30%N w) as [[w' [err|]]|] eqn:Hrun.
  - exists err. f_equal. f_equal.
    exact (transfer_failure_restores Transfer.bank "alice" "carol" 30%N w w' err
             bank_debit_failed bank_credit_failed
             (λ a b m u u' e (H : Transfer.logTransfer Transfer.bank a b m u = (u', Some e)),
                ltac:(cbn in H; congruence))
             bank_back bank_forth Hrun).
  - exfalso. revert Hrun. rewrite Transfer_runs. vm_compute. discriminate.
  - exfalso. revert Hrun. rewrite Transfer_runs. vm_compute. discriminate.
Defined.

(** ** Cache-aside reads and updates *)

Section CacheAsideMore.

Import Consistency.

Local Open Scope Z_scope.

Context {D V : Type} (marshal : V → option string).
Implicit Types (σ : Redis.server) (d : D) (loader : D → D * (error + V)).

Lemma lockKey_ne key : lockKey key ≠ key.
Proof.
  intros H. apply (f_equal String.length) in H. cbv in H. lia.
Qed.

Lemma live_put_ne σ key key' e :
  key ≠ key' → Redis.live (Redis.put σ key e) key' = Redis.live σ key'.
Proof.
  intros Hne. unfold Redis.live, Redis.put. cbn [Redis.db Redis.time].
  by rewrite lookup_insert_ne.
Qed.

Lemma Get_put_ne σ key key' e :
  key ≠ key' → Cache.Get key' (Redis.put σ key e) = Cache.Get key' σ.
Proof.
  intros Hne. unfold Cache.Get, Redis.GET. by rewrite live_put_ne.
Qed.

(** A read is a hit exactly when the key holds a string that is not
    empty and has not expired, and the server can be reached. *)
Lemma hit_live σ key :
  hit (Cache.Get key σ) = true →
  Redis.online σ = true
  ∧ ∃ s t, s ≠ "" ∧ (Cache.Get key σ).1 = s
           ∧ Redis.live σ key = Some {| Redis.val := Redis.VString s; Redis.expireAt := t |}.
Proof.
  unfold hit, Cache.Get, Redis.GET. destruct (Redis.online σ); [|done].
  destruct (Redis.live σ key) as [[[s|h] t]|]; [|done..].
  cbn [fst]. case_bool_decide as Hs; [done|]. intros _. split; [done|].
  by exists s, t.
Qed.

Lemma hit_value σ key s t :
  Redis.online σ = true → s ≠ "" →
  Redis.live σ key = Some {| Redis.val := Redis.VString s; Redis.expireAt := t |} →
  hit (Cache.Get key σ) = true ∧ (Cache.Get key σ).1 = s.
Proof.
  intros Hon Hs Hlive. unfold hit, Cache.Get, Redis.GET. rewrite Hon, Hlive.
  cbn. by rewrite bool_decide_eq_false_2.
Qed.

(** The way through [Get] when the cache has nothing to give and the lock
    is free: the loader runs once, its value is written if it can be, and
    the lock is gone again. *)
Lemma Get_loads fuel key loader r σ d :
  Redis.online σ = true →
  hit (Cache.Get key σ) = false →
  Redis.live σ (lockKey key) = None →
  ∃ σ',
    Get marshal (S fuel) key loader r σ d
    = Some (σ', (loader d).1,
            match (loader d).2 with
            | inl err => inl err
            | inr v => inr (Loaded v)
            end)
    ∧ Redis.time σ' = Redis.time σ
    ∧ Redis.online σ' = true
    ∧ Redis.db σ'
      = match (loader d).2 with
        | inr v =>
            match marshal v with
            | Some s =>
                <[key := {| Redis.val := Redis.VString s;
                            Redis.expireAt := Redis.deadline σ ((300 + r) * Second) |}]>
                  (delete (lockKey key) (Redis.db σ))
            | None => delete (lockKey key) (Redis.db σ)
            end
        | inl _ => delete (lockKey key) (Redis.db σ)
        end.
Proof.
  intros Hon Hmiss Hfree. cbn [Get]. rewrite Hmiss.
  unfold Cache.Lock, Redis.SETNX. rewrite Hon, Hfree. cbn [negb].
  rewrite (Get_put_ne _ _ _ _ (lockKey_ne key)), Hmiss.
  destruct (loader d) as [d' [err | v]]; cbn [fst snd].
  - eexists. split; [done|]. unfold Cache.Unlock, Redis.DEL, Redis.put.
    cbn [Redis.online]. rewrite Hon. cbn [fst Redis.time Redis.online Redis.db].
    by rewrite delete_insert_eq.
  - destruct (marshal v) as [s|].
    + eexists. split; [done|].
      unfold Cache.Unlock, Cache.Set_, Redis.SET, Redis.DEL, Redis.put, Redis.deadline.
      cbn [Redis.online]. rewrite Hon. cbn [fst Redis.time Redis.online Redis.db].
      split; [done|]. split; [done|].
      rewrite delete_insert_ne by (intros H; by apply (lockKey_ne key)).
      by rewrite delete_insert_eq.
    + eexists. split; [done|]. unfold Cache.Unlock, Redis.DEL, Redis.put.
      cbn [Redis.online]. rewrite Hon. cbn [fst Redis.time Redis.online Redis.db].
      by rewrite delete_insert_eq.
Qed.

Lemma tick_tick a b σ : Redis.tick a (Redis.tick b σ) = Redis.tick (b + a) σ.
Proof. unfold Redis.tick. cbn [Redis.time Redis.db Redis.online]. by rewrite Z.add_assoc. Qed.

(** What the cache cannot give does not come back by waiting. *)
Lemma miss_tick σ key dl :
  0 ≤ dl → hit (Cache.Get key σ) = false → hit (Cache.Get key (Redis.tick dl σ)) = false.
Proof.
  intros Hdl. unfold Cache.Get, Redis.GET. cbn [Redis.tick Redis.online].
  destruct (Redis.online σ); [|done].
  by destruct (live_tick σ key dl Hdl) as [-> | ->].
Qed.

Lemma absent_tick σ key dl : Redis.db σ !! key = None → Redis.live (Redis.tick dl σ) key = None.
Proof. intros H. unfold Redis.live. cbn [Redis.tick Redis.db]. by rewrite H. Qed.

Lemma Get_same σ σ' key :
  Redis.time σ' = Redis.time σ → Redis.online σ' = Redis.online σ →
  Redis.db σ' !! key = Redis.db σ !! key →
  Cache.Get key σ' = Cache.Get key σ.
Proof.
  intros Ht Hon Hdb. unfold Cache.Get, Redis.GET, Redis.live. by rewrite Ht, Hon, Hdb.
Qed.

(** A key that holds the empty string is not a hit, at any time. *)
Lemma miss_empty σ key t dl :
  Redis.db σ !! key = Some {| Redis.val := Redis.VString ""; Redis.expireAt := t |} →
  hit (Cache.Get key (Redis.tick dl σ)) = false.
Proof.
  intros H. unfold Cache.Get, Redis.GET, Redis.live. cbn [Redis.tick Redis.db Redis.online].
  rewrite H. destruct (Redis.online σ); [|done].
  by destruct (Redis.expired _ _).
Qed.

(** While the lock is taken, each call of [Get] gives up its turn:
    [k] calls later the clock has moved by [k] times 100 ms and nothing
    else has changed. *)
Lemma Get_retries k fuel key loader r σ d :
  Redis.online σ = true →
  hit (Cache.Get key σ) = false →
  (∀ j : nat, (j < k)%nat →
     is_Some (Redis.live (Redis.tick (Z.of_nat j * (100 * Millisecond)) σ) (lockKey key))) →
  Get marshal (k + fuel)%nat key loader r σ d
  = Get marshal fuel key loader r (Redis.tick (Z.of_nat k * (100 * Millisecond)) σ) d.
Proof.
  revert σ. induction k as [|k IH]; intros σ Hon Hmiss Hheld.
  { change (Z.of_nat 0 * _) with 0. by rewrite tick_0. }
  cbn [Nat.add Get]. rewrite Hmiss.
  destruct (Hheld 0%nat ltac:(lia)) as [e He].
  change (Z.of_nat 0 * _) with 0 in He. rewrite tick_0 in He.
  unfold Cache.Lock, Redis.SETNX. rewrite Hon, He. cbn [negb].
  rewrite IH.
  - rewrite tick_tick. f_equal. f_equal. lia.
  - done.
  - apply miss_tick; [by vm_compute|done].
  - intros j Hj. rewrite tick_tick.
    replace (100 * Millisecond + Z.of_nat j * (100 * Millisecond))
      with (Z.of_nat (S j) * (100 * Millisecond)) by lia.
    apply Hheld. lia.
Qed.

(** Without a server, or with a lock that does not expire in front of a
    value that is not there, no number of calls is enough. *)
Lemma Get_spins fuel key loader r σ d :
  Redis.online σ = false
  ∨ (hit (Cache.Get key σ) = false
     ∧ ∃ e, Redis.db σ !! lockKey key = Some e ∧ Redis.expireAt e = None) →
  Get marshal fuel key loader r σ d = None.
Proof.
  revert σ. induction fuel as [|fuel IH]; intros σ H; [done|].
  cbn [Get]. destruct H as [Hoff | (Hmiss & e & He & Hnone)].
  - unfold Cache.Get at 1, Cache.Lock. rewrite Hoff. cbn [hit negb].
    apply IH. by left.
  - rewrite Hmiss. unfold Cache.Lock. destruct (Redis.online σ) eqn:Hon.
    + unfold Redis.SETNX, Redis.live. rewrite He. unfold Redis.expired. rewrite Hnone.
      cbn [negb]. apply IH. right. split; [apply miss_tick; [by vm_compute|done]|].
      by exists e.
    + cbn [negb]. apply IH. by left.
Qed.

End CacheAsideMore.

Section CacheAsideRuns.

Import Consistency.

Local Open Scope Z_scope.

Context {D V : Type} (marshal : V → option string).
Implicit Types (σ : Redis.server) (d : D) (loader : D → D * (error + V)).

(** A value that is there is returned as it is; nothing is written and
    the loader is not asked. *)
Lemma Get_hits fuel key loader r σ d s t :
  Redis.online σ = true → s ≠ "" →
  Redis.live σ key = Some {| Redis.val := Redis.VString s; Redis.expireAt := t |} →
  Get marshal (S fuel) key loader r σ d = Some (σ, d, inr (Cached s)).
Proof.
  intros Hon Hs Hlive. destruct (hit_value σ key s t Hon Hs Hlive) as [Hhit Hval].
  cbn [Get]. by rewrite Hhit, Hval.
Qed.

(** The result alone of the way through the loader. *)
Lemma Get_asks fuel key loader r σ d :
  Redis.online σ = true →
  hit (Cache.Get key σ) = false →
  Redis.live σ (lockKey key) = None →
  ∃ σ',
    Get marshal (S fuel) key loader r σ d
    = Some (σ', (loader d).1,
            match (loader d).2 with
            | inl err => inl err
            | inr v => inr (Loaded v)
            end)
    ∧ Redis.time σ' = Redis.time σ.
Proof.
  intros Hon Hmiss Hfree.
  destruct (Get_loads marshal fuel key loader r σ d Hon Hmiss Hfree) as (σ' & Hrun & Ht & _).
  by exists σ'.
Qed.

Lemma miss_absent σ key : Redis.db σ !! key = None → hit (Cache.Get key σ) = false.
Proof.
  intros H. unfold Cache.Get, Redis.GET, Redis.live. rewrite H.
  by destruct (Redis.online σ).
Qed.

Lemma Delete_one σ key :
  Redis.online σ = true →
  Cache.Delete [key] σ = (Redis.DEL σ key, None).
Proof. intros Hon. unfold Cache.Delete. by rewrite Hon. Qed.

End CacheAsideRuns.

(** X18. A read that finds no usable value under the key and the lock
    free takes the lock, asks the loader once, and returns the loader's
    value. The value is then in the cache as the string the client writes
    for it, for a time of 300 to 599 seconds from now, the lock is gone
    again, and no other key has changed. *)
Theorem cache_aside_load {D V : Type} (marshal : V → option string) (fuel : nat)
    (key : string) (loader : D → D * (error + V)) (r : Z) (σ : Redis.server)
    (d d' : D) (v : V) (s : string) :
  Redis.online σ = true →
  Consistency.hit (Cache.Get key σ) = false →
  Redis.live σ (Consistency.lockKey key) = None →
  loader d = (d', inr v) →
  marshal v = Some s →
  (0 ≤ r < 300)%Z →
  ∃ σ' ttl,
    Consistency.Get marshal (S fuel) key loader r σ d
    = Some (σ', d', inr (Consistency.Loaded v))
    ∧ (300 * Second ≤ ttl ≤ 599 * Second)%Z
    ∧ Redis.time σ' = Redis.time σ
    ∧ Redis.db σ'
      = <[key := {| Redis.val := Redis.VString s;
                    Redis.expireAt := Some (Redis.time σ + ttl)%Z |}]>
          (delete (Consistency.lockKey key) (Redis.db σ)).
Proof.
  intros Hon Hmiss Hfree Hload Hs Hr.
  destruct (Get_loads marshal fuel key loader r σ d Hon Hmiss Hfree)
    as (σ' & Hrun & Ht & _ & Hdb).
  rewrite Hload in Hrun, Hdb. cbn [fst snd] in Hrun, Hdb. rewrite Hs in Hdb.
  exists σ', ((300 + r) * Second)%Z. split; [done|].
  split; [unfold Second, Nanosecond; lia|]. split; [done|].
  rewrite Hdb. unfold Redis.deadline.
  destruct (Z.eqb_spec ((300 + r) * Second) 0) as [H0 | _]; [|done].
  unfold Second, Nanosecond in H0. lia.
Qed.

Lemma cache_aside_load_witness :
  ∃ σ' ttl,
    Consistency.Get Some 1 "sku:1" (Consistency.read "sku:1") 17 Redis.empty Consistency.prices
    = Some (σ', (Consistency.read "sku:1" Consistency.prices).1, inr (Consistency.Loaded "42"))
    ∧ (300 * Second ≤ ttl ≤ 599 * Second)%Z
    ∧ Redis.time σ' = Redis.time Redis.empty
    ∧ Redis.db σ'
      = <[ "sku:1" := {| Redis.val := Redis.VString "42";
                         Redis.expireAt := Some (Redis.time Redis.empty + ttl)%Z |}]>
          (delete (Consistency.lockKey "sku:1") (Redis.db Redis.empty)).
Proof.
  apply (cache_aside_load Some 0 "sku:1" (Consistency.read "sku:1") 17 Redis.empty
           Consistency.prices _ "42" "42");
    [reflexivity | by vm_compute | by vm_compute | by vm_compute | reflexivity | lia].
Defined.

(** X19. The cache keeps nothing it could serve when the loader fails,
    when the loader's value cannot be written by the client, or when it is
    written as the empty string: the call returns the loader's error, or
    its value, with the lock released, and every later read of the key, at
    whatever time, asks the loader again. *)
Theorem cache_aside_not_cached {D V : Type} (marshal : V → option string) (fuel : nat)
    (key : string) (loader : D → D * (error + V)) (r : Z) (σ : Redis.server) (d : D) :
  Redis.online σ = true →
  Consistency.hit (Cache.Get key σ) = false →
  Redis.live σ (Consistency.lockKey key) = None →
  match (loader d).2 with
  | inl _ => True
  | inr v => marshal v = None ∨ marshal v = Some ""
  end →
  ∃ σ',
    Consistency.Get marshal (S fuel) key loader r σ d
    = Some (σ', (loader d).1,
            match (loader d).2 with
            | inl err => inl err
            | inr v => inr (Consistency.Loaded v)
            end)
    ∧ Redis.db σ' !! Consistency.lockKey key = None
    ∧ ∀ (dl : Z) (fuel2 : nat) (loader2 : D → D * (error + V)) (r2 : Z) (d2 : D),
        (0 ≤ dl)%Z →
        ∃ σ'',
          Consistency.Get marshal (S fuel2) key loader2 r2 (Redis.tick dl σ') d2
          = Some (σ'', (loader2 d2).1,
                  match (loader2 d2).2 with
                  | inl err => inl err
                  | inr v => inr (Consistency.Loaded v)
                  end).
Proof.
  intros Hon Hmiss Hfree Hwhat.
  destruct (Get_loads marshal fuel key loader r σ d Hon Hmiss Hfree)
    as (σ' & Hrun & Ht & Hon' & Hdb).
  exists σ'. split; [done|].
  assert (Hlock : Redis.db σ' !! Consistency.lockKey key = None).
  { rewrite Hdb. destruct ((loader d).2) as [err | v]; [by rewrite lookup_delete_eq|].
    destruct (marshal v); [|by rewrite lookup_delete_eq].
    rewrite lookup_insert_ne by (intros H; by apply (lockKey_ne key)).
    by rewrite lookup_delete_eq. }
  split; [done|]. intros dl fuel2 loader2 r2 d2 Hdl.
  assert (Hkept : Redis.db σ' = delete (Consistency.lockKey key) (Redis.db σ) →
                  Consistency.hit (Cache.Get key (Redis.tick dl σ')) = false).
  { intros Hdel. apply miss_tick; [done|].
    rewrite (Get_same σ σ' key Ht); [done|congruence|].
    rewrite Hdel. apply lookup_delete_ne, lockKey_ne. }
  assert (Hmiss' : Consistency.hit (Cache.Get key (Redis.tick dl σ')) = false).
  { destruct ((loader d).2) as [err | v]; [by apply Hkept|].
    destruct Hwhat as [Hnone | Hempty].
    - rewrite Hnone in Hdb. by apply Hkept.
    - rewrite Hempty in Hdb. eapply miss_empty. rewrite Hdb. apply lookup_insert_eq. }
  destruct (Get_asks marshal fuel2 key loader2 r2 (Redis.tick dl σ') d2)
    as (σ'' & Hrun2 & _); [done|done|by apply absent_tick|].
  by exists σ''.
Qed.

Lemma cache_aside_not_cached_witness :
  ∃ σ',
    Consistency.Get Some 1 "sku:2" (Consistency.read "sku:2") 17 Redis.empty Consistency.prices
    = Some (σ', (Consistency.read "sku:2" Consistency.prices).1, inl Consistency.ErrNoRows)
    ∧ Redis.db σ' !! Consistency.lockKey "sku:2" = None
    ∧ ∀ (dl : Z) (fuel2 : nat) (loader2 : Consistency.table → Consistency.table * (error + string))
        (r2 : Z) (d2 : Consistency.table),
        (0 ≤ dl)%Z →
        ∃ σ'',
          Consistency.Get Some (S fuel2) "sku:2" loader2 r2 (Redis.tick dl σ') d2
          = Some (σ'', (loader2 d2).1,
                  match (loader2 d2).2 with
                  | inl err => inl err
                  | inr v => inr (Consistency.Loaded v)
                  end).
Proof.
  apply (cache_aside_not_cached Some 0 "sku:2" (Consistency.read "sku:2") 17 Redis.empty
           Consistency.prices);
    [reflexivity | by vm_compute | by vm_compute | exact I].
Defined.

(** X20. Round trip of a value through the cache: after a read that
    loaded a value written as a non-empty string [s], a read of the same
    key returns [s] from the cache for as long as the entry lives, without
    asking its loader, writing to Redis or taking the lock; once the
    entry's 300 to 599 seconds are over, the next read asks its loader
    again. *)
Theorem cache_aside_round_trip {D V : Type} (marshal : V → option string) (fuel : nat)
    (key : string) (loader : D → D * (error + V)) (r : Z) (σ : Redis.server)
    (d d' : D) (v : V) (s : string) :
  Redis.online σ = true →
  Consistency.hit (Cache.Get key σ) = false →
  Redis.live σ (Consistency.lockKey key) = None →
  loader d = (d', inr v) →
  marshal v = Some s →
  s ≠ "" →
  (0 ≤ r < 300)%Z →
  ∃ σ',
    Consistency.Get marshal (S fuel) key loader r σ d
    = Some (σ', d', inr (Consistency.Loaded v))
    ∧ ∀ (dl : Z) (fuel2 : nat) (loader2 : D → D * (error + V)) (r2 : Z) (d2 : D),
        (0 ≤ dl)%Z →
        if (dl <? (300 + r) * Second)%Z then
          Consistency.Get marshal (S fuel2) key loader2 r2 (Redis.tick dl σ') d2
          = Some (Redis.tick dl σ', d2, inr (Consistency.Cached s))
        else
          ∃ σ'',
            Consistency.Get marshal (S fuel2) key loader2 r2 (Redis.tick dl σ') d2
            = Some (σ'', (loader2 d2).1,
                    match (loader2 d2).2 with
                    | inl err => inl err
                    | inr v => inr (Consistency.Loaded v)
                    end).
Proof.
  intros Hon Hmiss Hfree Hload Hs Hne Hr.
  destruct (Get_loads marshal fuel key loader r σ d Hon Hmiss Hfree)
    as (σ' & Hrun & Ht & Hon' & Hdb).
  rewrite Hload in Hrun, Hdb. cbn [fst snd] in Hrun, Hdb. rewrite Hs in Hdb.
  exists σ'. split; [done|]. intros dl fuel2 loader2 r2 d2 Hdl.
  assert (Hthere : Redis.db (Redis.tick dl σ') !! key
                   = Some {| Redis.val := Redis.VString s;
                             Redis.expireAt := Some (Redis.time σ + (300 + r) * Second)%Z |}).
  { cbn [Redis.tick Redis.db]. rewrite Hdb, lookup_insert_eq. unfold Redis.deadline.
    destruct (Z.eqb_spec ((300 + r) * Second) 0) as [H0 | _]; [|done].
    unfold Second, Nanosecond in H0. lia. }
  destruct (Z.ltb_spec dl ((300 + r) * Second)) as [Hin | Hout].
  - apply (Get_hits marshal fuel2 key loader2 r2 (Redis.tick dl σ') d2 s
             (Some (Redis.time σ + (300 + r) * Second)%Z)); [done|done|].
    unfold Redis.live. rewrite Hthere. unfold Redis.expired.
    cbn [Redis.expireAt Redis.tick Redis.time]. rewrite Ht.
    destruct (Z.leb_spec (Redis.time σ + (300 + r) * Second) (Redis.time σ + dl)); [lia|done].
  - destruct (Get_asks marshal fuel2 key loader2 r2 (Redis.tick dl σ') d2)
      as (σ'' & Hrun2 & _); [done| | |by exists σ''].
    + unfold Cache.Get, Redis.GET, Redis.live. rewrite Hthere. unfold Redis.expired.
      cbn [Redis.expireAt Redis.tick Redis.time Redis.online]. rewrite Ht, Hon'.
      by destruct (Z.leb_spec (Redis.time σ + (300 + r) * Second) (Redis.time σ + dl)); [|lia].
    + apply absent_tick. rewrite Hdb.
      rewrite lookup_insert_ne by (intros H; by apply (lockKey_ne key)).
      by rewrite lookup_delete_eq.
Qed.

Lemma cache_aside_round_trip_witness :
  ∃ σ',
    Consistency.Get Some 1 "sku:1" (Consistency.read "sku:1") 17 Redis.empty Consistency.prices
    = Some (σ', (Consistency.read "sku:1" Consistency.prices).1, inr (Consistency.Loaded "42"))
    ∧ Consistency.Get Some 1 "sku:1" (Consistency.read "sku:1") 5
        (Redis.tick (316 * Second) σ') (Consistency.read "sku:1" Consistency.prices).1
      = Some (Redis.tick (316 * Second) σ', (Consistency.read "sku:1" Consistency.prices).1,
              inr (Consistency.Cached "42")).
Proof.
  destruct (cache_aside_round_trip Some 0 "sku:1" (Consistency.read "sku:1") 17 Redis.empty
              Consistency.prices (Consistency.read "sku:1" Consistency.prices).1 "42" "42")
    as (σ' & Hrun & Hnext);
    [reflexivity | by vm_compute | by vm_compute | by vm_compute | reflexivity
    | discriminate | lia |].
  exists σ'. split; [exact Hrun|].
  exact (Hnext (316 * Second)%Z 0%nat (Consistency.read "sku:1") 5%Z
           (Consistency.read "sku:1" Consistency.prices).1 ltac:(by vm_compute)).
Defined.

(** X21. A read run on its own does not come back while Redis cannot be
    reached: every call fails to take the lock, sleeps and calls itself
    again, so that no number of calls gives a result. The same holds when
    nothing usable is under the key and the lock's key holds an entry
    without expiry. *)
Theorem cache_aside_never_returns {D V : Type} (marshal : V → option string)
    (key : string) (loader : D → D * (error + V)) (r : Z) (σ : Redis.server) (d : D) :
  Redis.online σ = false
  ∨ (Consistency.hit (Cache.Get key σ) = false
     ∧ ∃ e, Redis.db σ !! Consistency.lockKey key = Some e ∧ Redis.expireAt e = None) →
  ∀ fuel, Consistency.Get marshal fuel key loader r σ d = None.
Proof. intros H fuel. by apply Get_spins. Qed.

Lemma cache_aside_never_returns_witness :
  Consistency.Get Some 1000 "sku:1" (Consistency.read "sku:1") 17
    (Redis.connect false Redis.empty) Consistency.prices
  = None.
Proof.
  exact (cache_aside_never_returns Some "sku:1" (Consistency.read "sku:1") 17
           (Redis.connect false Redis.empty) Consistency.prices (or_introl eq_refl)
           1000%nat).
Defined.

(** X22. A reader that finds the lock taken waits for it in steps of
    100 ms. When nobody releases the lock and nobody fills the cache, the
    reader goes through exactly as many sleeps as it takes for the lock to
    expire, then takes the lock itself and asks the loader: with [n] the
    number of 100 ms steps that cover the lock's remaining time, [n] calls
    or fewer give no result, and one more call does, at a server time [n]
    steps later. *)
Theorem cache_aside_waits_for_lock {D V : Type} (marshal : V → option string)
    (n fuel : nat) (key : string) (loader : D → D * (error + V)) (r : Z)
    (σ : Redis.server) (d : D) (e : Redis.entry) (te : Z) :
  Redis.online σ = true →
  Consistency.hit (Cache.Get key σ) = false →
  Redis.db σ !! Consistency.lockKey key = Some e →
  Redis.expireAt e = Some te →
  (Redis.time σ + (Z.of_nat n - 1) * (100 * Millisecond) < te
   ≤ Redis.time σ + Z.of_nat n * (100 * Millisecond))%Z →
  (∀ k, (k ≤ n)%nat → Consistency.Get marshal k key loader r σ d = None)
  ∧ ∃ σ',
      Consistency.Get marshal (n + S fuel) key loader r σ d
      = Some (σ', (loader d).1,
              match (loader d).2 with
              | inl err => inl err
              | inr v => inr (Consistency.Loaded v)
              end)
      ∧ Redis.time σ' = (Redis.time σ + Z.of_nat n * (100 * Millisecond))%Z.
Proof.
  intros Hon Hmiss He Hte Hn.
  assert (Hheld : ∀ j : nat, (j < n)%nat →
            is_Some (Redis.live (Redis.tick (Z.of_nat j * (100 * Millisecond)) σ)
                       (Consistency.lockKey key))).
  { intros j Hj. exists e. unfold Redis.live. cbn [Redis.tick Redis.db Redis.time].
    rewrite He. unfold Redis.expired. rewrite Hte.
    destruct (Z.leb_spec te (Redis.time σ + Z.of_nat j * (100 * Millisecond))) as [H|H];
      [|done].
    unfold Millisecond, Nanosecond in *. nia. }
  split.
  - intros k Hk. rewrite <- (Nat.add_0_r k).
    rewrite Get_retries; [done|done|done|]. intros j Hj. apply Hheld. lia.
  - rewrite Get_retries by done.
    destruct (Get_asks marshal fuel key loader r
                (Redis.tick (Z.of_nat n * (100 * Millisecond)) σ) d)
      as (σ' & Hrun & Ht); [done| | |by exists σ'].
    + apply miss_tick; [|done]. unfold Millisecond, Nanosecond. lia.
    + unfold Redis.live. cbn [Redis.tick Redis.db Redis.time]. rewrite He.
      unfold Redis.expired. rewrite Hte.
      by destruct (Z.leb_spec te (Redis.time σ + Z.of_nat n * (100 * Millisecond)));
        [|lia].
Qed.

Lemma cache_aside_waits_for_lock_witness :
  let held := (Cache.Lock (Consistency.lockKey "sku:1") (10 * Second) Redis.empty).1 in
  (∀ k, (k ≤ 100)%nat →
     Consistency.Get Some k "sku:1" (Consistency.read "sku:1") 17 held Consistency.prices
     = None)
  ∧ ∃ σ',
      Consistency.Get Some 101 "sku:1" (Consistency.read "sku:1") 17 held Consistency.prices
      = Some (σ', (Consistency.read "sku:1" Consistency.prices).1,
              inr (Consistency.Loaded "42"))
      ∧ Redis.time σ' = (10 * Second)%Z.
Proof.
  intros held.
  exact (cache_aside_waits_for_lock Some 100 0 "sku:1" (Consistency.read "sku:1") 17 held
           Consistency.prices
           {| Redis.val := Redis.VString "locked"; Redis.expireAt := Some (10 * Second)%Z |}
           (10 * Second)%Z eq_refl ltac:(by vm_compute) ltac:(by vm_compute) eq_refl
           ltac:(by vm_compute)).
Defined.

(** X23. After an update that succeeded with Redis reachable, the key is
    gone from the cache, and the next read of the key, whenever it comes,
    asks its loader on the updated database instead of returning what was
    cached before. *)
Theorem cache_aside_update_then_get {D V : Type} (marshal : V → option string)
    (key : string) (updater : D → D * option error) (σ : Redis.server) (d d' : D) :
  Redis.online σ = true →
  Redis.live σ (Consistency.lockKey key) = None →
  updater d = (d', None) →
  ∃ σ1,
    Consistency.Update key updater σ d = (σ1, d', None)
    ∧ Redis.db σ1 = delete key (Redis.db σ)
    ∧ ∀ (dl : Z) (fuel : nat) (loader : D → D * (error + V)) (r : Z),
        (0 ≤ dl)%Z →
        ∃ σ',
          Consistency.Get marshal (S fuel) key loader r (Redis.tick dl σ1) d'
          = Some (σ', (loader d').1,
                  match (loader d').2 with
                  | inl err => inl err
                  | inr v => inr (Consistency.Loaded v)
                  end).
Proof.
  intros Hon Hfree Hup. exists (Redis.DEL σ key).
  unfold Consistency.Update. rewrite Hup, Delete_one by done.
  split; [done|]. split; [done|]. intros dl fuel loader r Hdl.
  destruct (Get_asks marshal fuel key loader r (Redis.tick dl (Redis.DEL σ key)) d')
    as (σ' & Hrun & _); [done| | |by exists σ'].
  - apply miss_absent. cbn [Redis.tick Redis.DEL Redis.db]. apply lookup_delete_eq.
  - destruct (live_tick (Redis.DEL σ key) (Consistency.lockKey key) dl Hdl) as [-> | ->];
      [|done].
    revert Hfree. unfold Redis.live. cbn [Redis.DEL Redis.db Redis.time].
    by rewrite lookup_delete_ne by (intros H; by apply (lockKey_ne key)).
Qed.

Lemma cache_aside_update_then_get_witness :
  ∃ σ',
    Consistency.Get Some 1 "sku:1" (Consistency.read "sku:1") 17
      (Redis.tick Second
         (Consistency.Update "sku:1" (Consistency.write "sku:1" "45")
            (Redis.SET Redis.empty "sku:1" "42" (300 * Second)) Consistency.prices).1.1)
      (Consistency.write "sku:1" "45" Consistency.prices).1
    = Some (σ', (Consistency.read "sku:1" (Consistency.write "sku:1" "45" Consistency.prices).1).1,
            inr (Consistency.Loaded "45")).
Proof.
  destruct (cache_aside_update_then_get Some "sku:1" (Consistency.write "sku:1" "45")
              (Redis.SET Redis.empty "sku:1" "42" (300 * Second)) Consistency.prices
              (Consistency.write "sku:1" "45" Consistency.prices).1
              eq_refl ltac:(by vm_compute) eq_refl)
    as (σ1 & Hup & _ & Hnext).
  rewrite Hup. cbn [fst].
  exact (Hnext Second 0%nat (Consistency.read "sku:1") 17%Z ltac:(by vm_compute)).
Defined.

(** X24. An update made while Redis cannot be reached reports success,
    because the result of deleting the key is dropped, and leaves the
    cached value where it was: once Redis is back, reads of the key return
    the value from before the update for as long as the entry lives,
    without asking the loader. *)
Theorem cache_aside_update_redis_down {D V : Type} (marshal : V → option string)
    (key : string) (updater : D → D * option error) (σ : Redis.server) (d d' : D)
    (s : string) (t : option Z) :
  Redis.online σ = false →
  s ≠ "" →
  Redis.live σ key = Some {| Redis.val := Redis.VString s; Redis.expireAt := t |} →
  updater d = (d', None) →
  Consistency.Update key updater σ d = (σ, d', None)
  ∧ ∀ (dl : Z) (fuel : nat) (loader : D → D * (error + V)) (r : Z),
      (0 ≤ dl)%Z →
      is_Some (Redis.live (Redis.tick dl σ) key) →
      Consistency.Get marshal (S fuel) key loader r (Redis.connect true (Redis.tick dl σ)) d'
      = Some (Redis.connect true (Redis.tick dl σ), d', inr (Consistency.Cached s)).
Proof.
  intros Hoff Hs Hlive Hup. unfold Consistency.Update, Cache.Delete.
  rewrite Hup, Hoff. split; [done|]. intros dl fuel loader r Hdl Hkept.
  apply (Get_hits marshal fuel key loader r _ d' s t); [done|done|].
  rewrite <- Hlive, <- (live_tick_kept σ key dl Hdl Hkept). done.
Qed.

Lemma cache_aside_update_redis_down_witness :
  let σ := Redis.connect false (Redis.SET Redis.empty "sku:1" "42" (300 * Second)) in
  Consistency.Update "sku:1" (Consistency.write "sku:1" "45") σ Consistency.prices
  = (σ, (Consistency.write "sku:1" "45" Consistency.prices).1, None)
  ∧ Consistency.Get Some 1 "sku:1" (Consistency.read "sku:1") 17
      (Redis.connect true (Redis.tick Second σ))
      (Consistency.write "sku:1" "45" Consistency.prices).1
    = Some (Redis.connect true (Redis.tick Second σ),
            (Consistency.write "sku:1" "45" Consistency.prices).1,
            inr (Consistency.Cached "42")).
Proof.
  intros σ.
  destruct (cache_aside_update_redis_down Some "sku:1" (Consistency.write "sku:1" "45") σ
              Consistency.prices (Consistency.write "sku:1" "45" Consistency.prices).1
              "42" (Some (300 * Second)%Z)
              eq_refl ltac:(discriminate) ltac:(by vm_compute) eq_refl)
    as [Hup Hnext].
  split; [exact Hup|].
  exact (Hnext Second 0%nat (Consistency.read "sku:1") 17%Z ltac:(by vm_compute)
           ltac:(vm_compute; by eexists)).
Defined.

(** X25. The delayed double delete removes the key before it runs the
    updater, whatever the updater then returns, and starts its second
    delete only when the updater succeeded. Whatever has been put under
    the key by the time the second delete runs, the read after it asks
    the loader. *)
Theorem delayed_double_delete {D V : Type} (marshal : V → option string)
    (key : string) (updater : D → D * option error) (σ : Redis.server) (d : D) :
  Redis.online σ = true →
  ∃ σ1,
    Consistency.DelayedDoubleDelete key updater σ d
    = (σ1, (updater d).1, (updater d).2,
       match (updater d).2 with
       | Some _ => None
       | None => Some key
       end)
    ∧ Redis.db σ1 = delete key (Redis.db σ)
    ∧ ∀ (σ2 : Redis.server) (fuel : nat) (loader : D → D * (error + V)) (r : Z) (d2 : D),
        Redis.online σ2 = true →
        Redis.live σ2 (Consistency.lockKey key) = None →
        ∃ σ',
          Consistency.Get marshal (S fuel) key loader r (Consistency.second_delete key σ2) d2
          = Some (σ', (loader d2).1,
                  match (loader d2).2 with
                  | inl err => inl err
                  | inr v => inr (Consistency.Loaded v)
                  end).
Proof.
  intros Hon. exists (Redis.DEL σ key). unfold Consistency.DelayedDoubleDelete.
  rewrite Delete_one by done. cbn [fst].
  split; [by destruct (updater d) as [d' [e|]]|]. split; [done|].
  intros σ2 fuel loader r d2 Hon2 Hfree. unfold Consistency.second_delete.
  rewrite Delete_one by done. cbn [fst].
  destruct (Get_asks marshal fuel key loader r (Redis.DEL σ2 key) d2)
    as (σ' & Hrun & _); [done| | |by exists σ'].
  - apply miss_absent. cbn [Redis.DEL Redis.db]. apply lookup_delete_eq.
  - revert Hfree. unfold Redis.live. cbn [Redis.DEL Redis.db Redis.time].
    by rewrite lookup_delete_ne by (intros H; by apply (lockKey_ne key)).
Qed.

Lemma delayed_double_delete_witness :
  let σ := Redis.SET Redis.empty "sku:1" "42" (300 * Second) in
  ∃ σ1,
    Consistency.DelayedDoubleDelete "sku:1" (Consistency.write "sku:1" "45") σ Consistency.prices
    = (σ1, (Consistency.write "sku:1" "45" Consistency.prices).1, None, Some "sku:1")
    ∧ Redis.db σ1 = delete "sku:1" (Redis.db σ).
Proof.
  intros σ.
  destruct (delayed_double_delete (V := string) Some "sku:1" (Consistency.write "sku:1" "45") σ
              Consistency.prices eq_refl)
    as (σ1 & Hrun & Hdb & _).
  exists σ1. split; [exact Hrun | exact Hdb].
Defined.


